(** * cbordump: decoded CBOR values made JSON-able

    A shallow embedding of [cbordump.py].  The script reads CBOR items from
    standard input, rewrites each decoded value with [jsonable] and prints it
    as one line of JSON.  The embedding follows the script function by
    function: [maybestr], [jsonable] and the top-level [while True] loop.

    Python objects are modelled by the inductive type [pyval]; a [dict] is
    an association list in insertion order (the order [items()] iterates in),
    because the result of [jsonable] depends on which entry is written last.
    Raising is modelled by the error monad [res]; [try ... except:] is
    [try_except].

    The library functions that the script calls are modelled by what they
    compute: [bytes.decode()] is strict UTF-8 decoding, [base64.b64encode]
    the encoding of RFC 4648.  The decoder and the JSON printer are external
    to the script: the loop takes the decoder as a parameter, and records
    what is handed to the printer.  The interpreter's recursion limit is not
    modelled. *)

From Stdlib Require Import ZArith List Bool Lia String Ascii.
From Stdlib Require Import Strings.Byte.
Import ListNotations.
Local Open Scope Z_scope.

(** ** Exceptions and the error monad *)

Inductive exn : Type :=
| EOFError
| TypeError
| ValueError
| UnicodeDecodeError
| UnicodeEncodeError
| BinasciiError.

Inductive res (A : Type) : Type :=
| Ret (a : A)
| Raise (e : exn).

Arguments Ret {A} a.
Arguments Raise {A} e.

Definition bind {A B : Type} (c : res A) (k : A -> res B) : res B :=
  match c with
  | Ret a => k a
  | Raise e => Raise e
  end.

Notation "x <- c ;; k" := (bind c (fun x => k))
  (at level 61, c at next level, right associativity).

(** [try: body except: handler] with a bare [except:], which catches every
    exception. *)
Definition try_except {A : Type} (body : res A) (handler : exn -> res A) : res A :=
  match body with
  | Ret a => Ret a
  | Raise e => handler e
  end.

(** ** Python values *)

(** [bytes] is a list of bytes, [str] a list of Unicode code points. *)
Definition pybytes : Type := list byte.
Definition pystr : Type := list Z.

Definition byte_val (b : byte) : Z := Z.of_N (Byte.to_N b).

Definition byte_of (z : Z) : byte :=
  match Byte.of_N (Z.to_N z) with
  | Some b => b
  | None => x00
  end.

(** A [str] literal of the source, as code points. *)
Definition str_lit (s : string) : pystr :=
  map (fun a => Z.of_N (N_of_ascii a)) (list_ascii_of_string s).

(** Keys of a decoded map: the hashable values a CBOR decoder yields
    (floats, which no claim distinguishes, are left out of the key type). *)
Inductive pykey : Type :=
| KNone
| KBool (b : bool)
| KInt (n : Z)
| KBytes (b : pybytes)
| KStr (s : pystr).

#[local] Set Warnings "-register-all".

Inductive pyval : Type :=
| PNone
| PBool (b : bool)
| PInt (n : Z)
| PFloat (bits : Z)          (* the IEEE 754 binary64 bit pattern *)
| PBytes (b : pybytes)
| PStr (s : pystr)
| PList (l : list pyval)
| PDict (d : list (pykey * pyval)).

Definition pydict : Type := list (pykey * pyval).

Fixpoint list_eqb {A : Type} (eqb : A -> A -> bool) (l1 l2 : list A) : bool :=
  match l1, l2 with
  | [], [] => true
  | a :: l1', b :: l2' => eqb a b && list_eqb eqb l1' l2'
  | _, _ => false
  end.

(** Equality of dict keys is Python's [==]: [True == 1] and [False == 0],
    while [str] and [bytes] never compare equal. *)
Definition key_eqb (a b : pykey) : bool :=
  match a, b with
  | KNone, KNone => true
  | KBool x, KBool y => Bool.eqb x y
  | KBool x, KInt n => (if x then 1 else 0) =? n
  | KInt n, KBool x => n =? (if x then 1 else 0)
  | KInt m, KInt n => m =? n
  | KBytes x, KBytes y => list_eqb Byte.eqb x y
  | KStr x, KStr y => list_eqb Z.eqb x y
  | _, _ => false
  end.

(** [d[k]] as a lookup, and the assignment [d[k] = v]: an existing equal
    key keeps its place (and its key object), a new key is appended. *)
Fixpoint dict_get (d : pydict) (k : pykey) : option pyval :=
  match d with
  | [] => None
  | (k', v') :: d' => if key_eqb k' k then Some v' else dict_get d' k
  end.

Fixpoint dict_set (d : pydict) (k : pykey) (v : pyval) : pydict :=
  match d with
  | [] => [(k, v)]
  | (k', v') :: d' =>
      if key_eqb k' k then (k', v) :: d' else (k', v') :: dict_set d' k v
  end.

(** [k + s] for a [str] [s]: concatenation when [k] is a [str], [TypeError]
    for every other key type. *)
Definition key_add_str (k : pykey) (s : pystr) : res pykey :=
  match k with
  | KStr a => Ret (KStr (a ++ s))
  | _ => Raise TypeError
  end.

(** Truth value of an object, as [if xs:] tests it. *)
Definition truthy (v : pyval) : bool :=
  match v with
  | PNone => false
  | PBool b => b
  | PInt n => negb (n =? 0)
  | PFloat bits => negb (bits mod 2 ^ 63 =? 0)
  | PBytes b => negb (Nat.eqb (List.length b) 0)
  | PStr s => negb (Nat.eqb (List.length s) 0)
  | PList l => negb (Nat.eqb (List.length l) 0)
  | PDict d => negb (Nat.eqb (List.length d) 0)
  end.

(** [ord(cs)] for a one-character string: the elements of a [pystr] already
    are code points. *)
Definition ord (cs : Z) : Z := cs.

(** [_sp = ord(' ')], which the script defines and never uses. *)
Definition _sp : Z := ord 0x20.

(** ** [bytes.decode()]: strict UTF-8

    The built-in decoder with its defaults ([encoding='utf-8'],
    [errors='strict']): well-formed UTF-8 only, so no overlong form, no
    surrogate and nothing above U+10FFFF. *)

Definition in_range (lo hi c : Z) : bool := (lo <=? c) && (c <=? hi).

Definition is_cont (c : Z) : bool := in_range 0x80 0xBF c.

(** Bounds of the second byte of a three- and of a four-byte sequence. *)
Definition second3_ok (c0 c1 : Z) : bool :=
  if c0 =? 0xE0 then in_range 0xA0 0xBF c1
  else if c0 =? 0xED then in_range 0x80 0x9F c1
  else is_cont c1.

Definition second4_ok (c0 c1 : Z) : bool :=
  if c0 =? 0xF0 then in_range 0x90 0xBF c1
  else if c0 =? 0xF4 then in_range 0x80 0x8F c1
  else is_cont c1.

Fixpoint bytes_decode (bs : pybytes) : res pystr :=
  match bs with
  | [] => Ret []
  | b0 :: r0 =>
      let c0 := byte_val b0 in
      if c0 <? 0x80 then
        y <- bytes_decode r0 ;; Ret (c0 :: y)
      else if in_range 0xC2 0xDF c0 then
        match r0 with
        | b1 :: r1 =>
            let c1 := byte_val b1 in
            if is_cont c1 then
              y <- bytes_decode r1 ;;
              Ret ((c0 - 0xC0) * 64 + (c1 - 0x80) :: y)
            else Raise UnicodeDecodeError
        | _ => Raise UnicodeDecodeError
        end
      else if in_range 0xE0 0xEF c0 then
        match r0 with
        | b1 :: b2 :: r2 =>
            let c1 := byte_val b1 in
            let c2 := byte_val b2 in
            if second3_ok c0 c1 && is_cont c2 then
              y <- bytes_decode r2 ;;
              Ret ((c0 - 0xE0) * 4096 + (c1 - 0x80) * 64 + (c2 - 0x80) :: y)
            else Raise UnicodeDecodeError
        | _ => Raise UnicodeDecodeError
        end
      else if in_range 0xF0 0xF4 c0 then
        match r0 with
        | b1 :: b2 :: b3 :: r3 =>
            let c1 := byte_val b1 in
            let c2 := byte_val b2 in
            let c3 := byte_val b3 in
            if second4_ok c0 c1 && is_cont c2 && is_cont c3 then
              y <- bytes_decode r3 ;;
              Ret ((c0 - 0xF0) * 262144 + (c1 - 0x80) * 4096
                   + (c2 - 0x80) * 64 + (c3 - 0x80) :: y)
            else Raise UnicodeDecodeError
        | _ => Raise UnicodeDecodeError
        end
      else Raise UnicodeDecodeError
  end.

(** [str.encode('ascii')], which [base64.b64decode] applies to a [str]
    argument. *)
Fixpoint str_encode_ascii (s : pystr) : res pybytes :=
  match s with
  | [] => Ret []
  | c :: s' =>
      if in_range 0 0x7F c then
        bs <- str_encode_ascii s' ;; Ret (byte_of c :: bs)
      else Raise UnicodeEncodeError
  end.

(** ** [base64.b64encode] and [base64.b64decode]

    The standard alphabet of RFC 4648 with [=] padding.  Three bytes make a
    24-bit group that is cut into four 6-bit indices. *)

Definition b64_alphabet : list byte :=
  list_byte_of_string
    "ABCDEFGHIJKLMNOPQRSTUVWXYZabcdefghijklmnopqrstuvwxyz0123456789+/".

Definition b64_pad : byte := x3d.

Definition b64_char (i : Z) : byte := nth (Z.to_nat i) b64_alphabet b64_pad.

Fixpoint index_of (c : byte) (l : list byte) (i : Z) : option Z :=
  match l with
  | [] => None
  | x :: l' => if Byte.eqb x c then Some i else index_of c l' (i + 1)
  end.

Definition b64_index (c : byte) : option Z := index_of c b64_alphabet 0.

Fixpoint b64encode (bs : pybytes) : pybytes :=
  match bs with
  | [] => []
  | [b0] =>
      let a := byte_val b0 in
      [b64_char (a / 4); b64_char (a mod 4 * 16); b64_pad; b64_pad]
  | [b0; b1] =>
      let a := byte_val b0 in
      let b := byte_val b1 in
      [b64_char (a / 4); b64_char (a mod 4 * 16 + b / 16);
       b64_char (b mod 16 * 4); b64_pad]
  | b0 :: b1 :: b2 :: rest =>
      let a := byte_val b0 in
      let b := byte_val b1 in
      let c := byte_val b2 in
      b64_char (a / 4) :: b64_char (a mod 4 * 16 + b / 16)
        :: b64_char (b mod 16 * 4 + c / 64) :: b64_char (c mod 64)
        :: b64encode rest
  end.

(** Strict decoding ([validate=True]): every character must belong to the
    alphabet and padding may only end the last group of four. *)
Fixpoint b64decode (cs : pybytes) : res pybytes :=
  match cs with
  | [] => Ret []
  | c1 :: c2 :: c3 :: c4 :: rest =>
      match b64_index c1, b64_index c2 with
      | Some s1, Some s2 =>
          let o1 := byte_of (s1 * 4 + s2 / 16) in
          match b64_index c3, b64_index c4 with
          | Some s3, Some s4 =>
              let o2 := byte_of (s2 mod 16 * 16 + s3 / 4) in
              let o3 := byte_of (s3 mod 4 * 64 + s4) in
              tl <- b64decode rest ;; Ret (o1 :: o2 :: o3 :: tl)
          | Some s3, None =>
              let o2 := byte_of (s2 mod 16 * 16 + s3 / 4) in
              match rest with
              | [] => if Byte.eqb c4 b64_pad then Ret [o1; o2]
                      else Raise BinasciiError
              | _ => Raise BinasciiError
              end
          | None, _ =>
              match rest with
              | [] => if Byte.eqb c3 b64_pad && Byte.eqb c4 b64_pad
                      then Ret [o1] else Raise BinasciiError
              | _ => Raise BinasciiError
              end
          end
      | _, _ => Raise BinasciiError
      end
  | _ => Raise BinasciiError
  end.

(** [base64.b64decode(t)] for a [str] [t]: the text is encoded as ASCII
    first, and a [str] with a character outside ASCII is refused with
    [ValueError] (the [UnicodeEncodeError] of the encoding is caught and
    replaced). *)
Definition b64decode_str (t : pystr) : res pybytes :=
  bs <- try_except (str_encode_ascii t) (fun _ => Raise ValueError) ;;
  b64decode bs.

(** ** The script: [maybestr] and [jsonable] *)

(** The [for cs in y:] loop of [maybestr] with its early [return None];
    falling out of the loop returns [y]. *)
Fixpoint maybestr_for (y : pystr) (it : pystr) : res pyval :=
  match it with
  | [] => Ret (PStr y)
  | cs :: it' =>
      let c := ord cs in
      if (0x20 <=? c) && (c <=? 0x7f) then maybestr_for y it'
      else Ret PNone
  end.

Definition maybestr (x : pybytes) : res pyval :=
  try_except
    (y <- bytes_decode x ;; maybestr_for y y)
    (fun _ => Ret PNone).

Section DictLoop.

(** The recursive call, [jsonable] itself once the knot is tied. *)
Variable rec_jsonable : pyval -> res pyval.

(** One pass through the body of [for k, v in x.items():], from the
    mapping [out] built so far to the mapping after the pass.  In
    [out[k + '_b64'] = base64.b64encode(v).decode()] Python evaluates the
    right-hand side before the subscript. *)
Definition jsonable_entry (out : pydict) (k : pykey) (v : pyval) : res pydict :=
  match v with
  | PBytes b =>
      xs <- maybestr b ;;
      if truthy xs then Ret (dict_set out k xs)
      else
        t <- bytes_decode (b64encode b) ;;
        k' <- key_add_str k (str_lit "_b64") ;;
        Ret (dict_set out k' (PStr t))
  | _ =>
      v' <- rec_jsonable v ;;
      Ret (dict_set out k v')
  end.

Fixpoint jsonable_items (items : list (pykey * pyval)) (out : pydict) : res pydict :=
  match items with
  | [] => Ret out
  | (k, v) :: rest =>
      out' <- jsonable_entry out k v ;;
      jsonable_items rest out'
  end.

End DictLoop.

Fixpoint jsonable (x : pyval) : res pyval :=
  match x with
  | PDict d =>
      out <- jsonable_items jsonable d [] ;;
      Ret (PDict out)
  | _ => Ret x
  end.

(** *** What one entry contributes

    The key and the value that the loop body stores for an entry [(k, v)],
    read off the three assignments of [jsonable]; [jsonable_entry_writes]
    below shows that the loop body stores exactly this pair. *)

Definition in_text_range (c : Z) : bool := in_range 0x20 0x7F c.

(** Every byte lies in [0x20, 0x7F]. *)
Definition all_in_range (b : pybytes) : bool :=
  forallb (fun x => in_text_range (byte_val x)) b.

(** The entry takes the text path: [maybestr] returns a non-empty string. *)
Definition text_path (b : pybytes) : bool :=
  negb (Nat.eqb (List.length b) 0) && all_in_range b.

(** ASCII bytes read as text, and the base64 text of a byte string. *)
Definition ascii_text (b : pybytes) : pystr := map byte_val b.

Definition b64_text (b : pybytes) : pystr := ascii_text (b64encode b).

Definition out_key (k : pykey) (v : pyval) : res pykey :=
  match v with
  | PBytes b => if text_path b then Ret k else key_add_str k (str_lit "_b64")
  | _ => Ret k
  end.

Definition out_val (v : pyval) : res pyval :=
  match v with
  | PBytes b => if text_path b then Ret (PStr (ascii_text b))
                else Ret (PStr (b64_text b))
  | _ => jsonable v
  end.

(** The pairs that the entries of a mapping store, in order, and the
    mapping that a sequence of stores builds from [d]. *)
Fixpoint writes (items : list (pykey * pyval)) : res (list (pykey * pyval)) :=
  match items with
  | [] => Ret []
  | (k, v) :: rest =>
      w <- out_val v ;;
      q <- out_key k v ;;
      ws <- writes rest ;;
      Ret ((q, w) :: ws)
  end.

Definition apply_writes (ws : list (pykey * pyval)) (d : pydict) : pydict :=
  fold_left (fun d' w => dict_set d' (fst w) (snd w)) ws d.

(** The value a sequence of writes [d[k] = v] leaves under [q], if any. *)
Fixpoint last_write (ws : list (pykey * pyval)) (q : pykey) : option pyval :=
  match ws with
  | [] => None
  | (k, v) :: ws' =>
      match last_write ws' q with
      | Some v' => Some v'
      | None => if key_eqb k q then Some v else None
      end
  end.

(** No entry of [items] is stored under a key equal to [q]. *)
Definition no_write_to (q : pykey) (items : list (pykey * pyval)) : Prop :=
  forall k v q', In (k, v) items -> out_key k v = Ret q' -> key_eqb q' q = false.

Definition is_dict (x : pyval) : bool :=
  match x with
  | PDict _ => true
  | _ => false
  end.

Definition is_bytes (x : pyval) : bool :=
  match x with
  | PBytes _ => true
  | _ => false
  end.

Definition is_text_key (k : pykey) : bool :=
  match k with
  | KStr _ => true
  | _ => false
  end.

(** Normal input: every mapping that [jsonable] visits (the value itself and
    the mappings nested as mapping values) has [str] keys only. *)
Fixpoint text_keys (x : pyval) : bool :=
  match x with
  | PDict d => forallb (fun kv => is_text_key (fst kv) && text_keys (snd kv)) d
  | _ => true
  end.

(** ** The top-level loop

    [while True: ob = cbor.cbor.load(bstdin); json.dump(jsonable(ob),
    sys.stdout); sys.stdout.write('\n')].  Standard input is the list of
    bytes not yet read; standard output is recorded as the sequence of
    writes.  The decoder is a parameter of the loop. *)

Definition decoder : Type := list byte -> res (pyval * list byte).

(** [json.dump] accepts every value of [pyval] except [bytes] objects
    (as a value anywhere, or as a key). *)
Definition key_json_ok (k : pykey) : bool :=
  match k with
  | KBytes _ => false
  | _ => true
  end.

Fixpoint json_ok (v : pyval) : bool :=
  match v with
  | PBytes _ => false
  | PList l => forallb json_ok l
  | PDict d => forallb (fun kv => key_json_ok (fst kv) && json_ok (snd kv)) d
  | _ => true
  end.

Inductive event : Type :=
| EvJson (v : pyval)          (* the JSON text of [v] *)
| EvJsonPartial (v : pyval)   (* [json.dump] raised part-way through [v] *)
| EvNewline.

Record process : Type := mkProcess {
  bstdin : list byte;
  stdout : list event
}.

(** How one pass through a loop body ends, and how the script ends. *)
Inductive signal : Type :=
| Continue
| Break
| Raised (e : exn).

Inductive ending : Type :=
| Finished
| Uncaught (e : exn).

(** The interpreter exits with status 0 when the script runs to its end and
    with status 1 after an uncaught exception. *)
Definition exit_status (e : ending) : Z :=
  match e with
  | Finished => 0
  | Uncaught _ => 1
  end.

(** [while True: body]; [None] when the loop is still running after [fuel]
    passes. *)
Fixpoint while_true {S : Type} (fuel : nat) (body : S -> S * signal) (s : S)
  : option (S * ending) :=
  match fuel with
  | O => None
  | Datatypes.S n =>
      let '(s', sg) := body s in
      match sg with
      | Continue => while_true n body s'
      | Break => Some (s', Finished)
      | Raised e => Some (s', Uncaught e)
      end
  end.

Definition main_body (load : decoder) (p : process) : process * signal :=
  match load (bstdin p) with
  | Raise e => (p, Raised e)
  | Ret (ob, rest) =>
      let p1 := mkProcess rest (stdout p) in
      match jsonable ob with
      | Raise e => (p1, Raised e)
      | Ret j =>
          if json_ok j then
            (mkProcess rest (stdout p ++ [EvJson j; EvNewline]), Continue)
          else
            (mkProcess rest (stdout p ++ [EvJsonPartial j]), Raised TypeError)
      end
  end.

(** The loop from a state of the process, and the script from its start. *)
Definition run (load : decoder) (fuel : nat) (p : process)
  : option (process * ending) :=
  while_true fuel (main_body load) p.

Definition main (load : decoder) (fuel : nat) (input : list byte)
  : option (process * ending) :=
  run load fuel (mkProcess input []).

(** The number of complete lines written. *)
Definition lines (out : list event) : nat :=
  List.length (filter (fun ev => match ev with EvNewline => true | _ => false end) out).

(** ** A decoder to run the loop on

    Modelled from the spec: the decoder, an external collaborator (the
    [cbor] package) that is not part of the source.  It reads one complete
    CBOR item from the input and returns it as a value tree, it fails on a
    malformed item, and it signals the end of the stream when no byte is
    left to start an item, which [cbor.cbor.load] does by raising
    [EOFError].

    The loop takes its decoder as a parameter and its theorems hold for
    every decoder.  [cbor_load] is the instance they are run on: it reads
    the definite-length items of RFC 8949 (integers, byte and text strings,
    arrays, maps, [false], [true], [null], [undefined] and binary64 floats)
    and refuses everything else with [ValueError]. *)

Fixpoint read_uint (n : nat) (bs : list byte) (acc : Z) : res (Z * list byte) :=
  match n with
  | O => Ret (acc, bs)
  | S n' =>
      match bs with
      | [] => Raise EOFError
      | b :: r => read_uint n' r (acc * 256 + byte_val b)
      end
  end.

Definition read_arg (info : Z) (r : list byte) : res (Z * list byte) :=
  if info <? 24 then Ret (info, r)
  else if info =? 24 then read_uint 1 r 0
  else if info =? 25 then read_uint 2 r 0
  else if info =? 26 then read_uint 4 r 0
  else if info =? 27 then read_uint 8 r 0
  else Raise ValueError.

Definition read_bytes (n : Z) (bs : list byte) : res (pybytes * list byte) :=
  if Z.of_nat (List.length bs) <? n then Raise EOFError
  else Ret (firstn (Z.to_nat n) bs, skipn (Z.to_nat n) bs).

Definition key_of (v : pyval) : res pykey :=
  match v with
  | PNone => Ret KNone
  | PBool b => Ret (KBool b)
  | PInt n => Ret (KInt n)
  | PBytes b => Ret (KBytes b)
  | PStr s => Ret (KStr s)
  | PFloat _ => Raise ValueError
  | PList _ | PDict _ => Raise TypeError
  end.

Section CborSequences.

(** The decoder of one item, at the next nesting depth. *)
Variable item : list byte -> res (pyval * list byte).

Fixpoint cbor_elems (n : nat) (r : list byte) : res (list pyval * list byte) :=
  match n with
  | O => Ret ([], r)
  | S n' =>
      y <- item r ;;
      z <- cbor_elems n' (snd y) ;;
      Ret (fst y :: fst z, snd z)
  end.

Fixpoint cbor_pairs (n : nat) (r : list byte) (out : pydict)
  : res (pydict * list byte) :=
  match n with
  | O => Ret (out, r)
  | S n' =>
      k <- item r ;;
      k' <- key_of (fst k) ;;
      v <- item (snd k) ;;
      cbor_pairs n' (snd v) (dict_set out k' (fst v))
  end.

End CborSequences.

Fixpoint cbor_item (depth : nat) (bs : list byte) : res (pyval * list byte) :=
  match depth with
  | O => Raise ValueError
  | S d =>
      match bs with
      | [] => Raise EOFError
      | ib :: r =>
          let major := byte_val ib / 32 in
          let info := byte_val ib mod 32 in
          a <- read_arg info r ;;
          let arg := fst a in
          let r1 := snd a in
          if major =? 0 then Ret (PInt arg, r1)
          else if major =? 1 then Ret (PInt (-1 - arg), r1)
          else if major =? 2 then
            x <- read_bytes arg r1 ;; Ret (PBytes (fst x), snd x)
          else if major =? 3 then
            x <- read_bytes arg r1 ;;
            s <- bytes_decode (fst x) ;;
            Ret (PStr s, snd x)
          else if major =? 4 then
            if Z.of_nat (List.length r1) <? arg then Raise EOFError
            else
              x <- cbor_elems (cbor_item d) (Z.to_nat arg) r1 ;;
              Ret (PList (fst x), snd x)
          else if major =? 5 then
            if Z.of_nat (List.length r1) <? arg then Raise EOFError
            else
              x <- cbor_pairs (cbor_item d) (Z.to_nat arg) r1 [] ;;
              Ret (PDict (fst x), snd x)
          else if major =? 7 then
            if info =? 20 then Ret (PBool false, r1)
            else if info =? 21 then Ret (PBool true, r1)
            else if info =? 22 then Ret (PNone, r1)
            else if info =? 23 then Ret (PNone, r1)
            else if info =? 27 then Ret (PFloat arg, r1)
            else Raise ValueError
          else Raise ValueError
      end
  end.

Definition max_depth : nat := 100.

Definition cbor_load : decoder := cbor_item max_depth.

(** Keys up to Python equality: a [bool] key stands for the integer it
    equals. *)
Definition key_norm (k : pykey) : pykey :=
  match k with
  | KBool b => KInt (if b then 1 else 0)
  | _ => k
  end.

(** * Theorems *)

(** ** Bytes *)

Lemma byte_val_range (b : byte) : 0 <= byte_val b < 256.
Proof.
  unfold byte_val. pose proof (Byte.to_N_bounded b). lia.
Qed.

Lemma byte_of_val (b : byte) : byte_of (byte_val b) = b.
Proof.
  unfold byte_of, byte_val. rewrite N2Z.id, Byte.of_to_N. reflexivity.
Qed.

Lemma byte_eqb_refl (b : byte) : Byte.eqb b b = true.
Proof. apply Byte.byte_dec_lb. reflexivity. Qed.

(** ** The error monad *)

Lemma bind_ret_inv {A B : Type} (c : res A) (k : A -> res B) (b : B) :
  bind c k = Ret b -> exists a, c = Ret a /\ k a = Ret b.
Proof.
  destruct c as [a|e]; simpl; intros H; [eauto | discriminate].
Qed.

Ltac bind_inv H :=
  let a := fresh "a" in
  let Ha := fresh "Ha" in
  apply bind_ret_inv in H; destruct H as (a & Ha & H).

(** ** Strict UTF-8 decoding *)

(** ASCII bytes decode to themselves. *)
Lemma bytes_decode_ascii (b : pybytes) :
  forallb (fun x => byte_val x <? 0x80) b = true ->
  bytes_decode b = Ret (ascii_text b).
Proof.
  induction b as [|b0 r IH]; simpl; intros H; [reflexivity|].
  apply andb_true_iff in H. destruct H as [H0 Hr].
  rewrite H0, (IH Hr). reflexivity.
Qed.

(** The first code point of a decoded text is below [0x80] only when the
    first byte is, and then it is that byte. *)
Lemma bytes_decode_head (b0 : byte) (r0 : pybytes) (y : pystr) :
  bytes_decode (b0 :: r0) = Ret y ->
  (byte_val b0 < 0x80 /\
     exists y', bytes_decode r0 = Ret y' /\ y = byte_val b0 :: y')
  \/ (exists c y', y = c :: y' /\ 0x80 <= c).
Proof.
  pose proof (byte_val_range b0) as R0.
  cbn [bytes_decode]. cbv zeta.
  destruct (byte_val b0 <? 0x80) eqn:E0.
  { intros H. bind_inv H. inversion H; subst. left. split; [lia | eauto]. }
  intros H. right.
  destruct (in_range 0xC2 0xDF (byte_val b0)) eqn:E2.
  { destruct r0 as [|b1 r1]; [discriminate|].
    destruct (is_cont (byte_val b1)) eqn:C1; [|discriminate].
    bind_inv H. inversion H; subst. do 2 eexists. split; [reflexivity|].
    unfold is_cont, in_range in *. lia. }
  destruct (in_range 0xE0 0xEF (byte_val b0)) eqn:E3.
  { destruct r0 as [|b1 [|b2 r2]]; try discriminate.
    destruct (second3_ok (byte_val b0) (byte_val b1) && is_cont (byte_val b2)) eqn:C;
      [|discriminate].
    bind_inv H. inversion H; subst. do 2 eexists. split; [reflexivity|].
    apply andb_true_iff in C. destruct C as [C1 C2].
    unfold second3_ok, is_cont, in_range in *.
    destruct (byte_val b0 =? 0xE0) eqn:Q1; [lia|].
    destruct (byte_val b0 =? 0xED) eqn:Q2; lia. }
  destruct (in_range 0xF0 0xF4 (byte_val b0)) eqn:E4; [|discriminate].
  destruct r0 as [|b1 [|b2 [|b3 r3]]]; try discriminate.
  destruct (second4_ok (byte_val b0) (byte_val b1) && is_cont (byte_val b2)
            && is_cont (byte_val b3)) eqn:C; [|discriminate].
  bind_inv H. inversion H; subst. do 2 eexists. split; [reflexivity|].
  apply andb_true_iff in C. destruct C as [C C3].
  apply andb_true_iff in C. destruct C as [C1 C2].
  unfold second4_ok, is_cont, in_range in *.
  destruct (byte_val b0 =? 0xF0) eqn:Q1; [lia|].
  destruct (byte_val b0 =? 0xF4) eqn:Q2; lia.
Qed.

(** A decoded text whose code points are all below [0x80] comes from ASCII
    bytes, one byte per code point. *)
Lemma bytes_decode_low (b : pybytes) :
  forall y, bytes_decode b = Ret y ->
  forallb (fun c => c <? 0x80) y = true ->
  y = ascii_text b.
Proof.
  induction b as [|b0 r IH]; intros y H Hy.
  - simpl in H. inversion H. reflexivity.
  - apply bytes_decode_head in H.
    destruct H as [(H0 & y' & Hr & ->) | (c & y' & -> & Hc)].
    + simpl in Hy. apply andb_true_iff in Hy. destruct Hy as [_ Hy].
      simpl. f_equal. apply IH; assumption.
    + simpl in Hy. apply andb_true_iff in Hy. destruct Hy as [Hy _]. lia.
Qed.

(** ** [maybestr] *)

Lemma maybestr_for_spec (y it : pystr) :
  maybestr_for y it = Ret (if forallb in_text_range it then PStr y else PNone).
Proof.
  induction it as [|cs it IH]; simpl; [reflexivity|].
  unfold ord, in_text_range at 1, in_range.
  destruct ((0x20 <=? cs) && (cs <=? 0x7F)); [exact IH | reflexivity].
Qed.

(** [maybestr] in one equation: the decoded text when decoding succeeds and
    every code point is in range, [None] otherwise. *)
Lemma maybestr_eq (x : pybytes) :
  maybestr x =
  Ret (match bytes_decode x with
       | Ret y => if forallb in_text_range y then PStr y else PNone
       | Raise _ => PNone
       end).
Proof.
  unfold maybestr.
  destruct (bytes_decode x) as [y|e]; simpl; [|reflexivity].
  rewrite maybestr_for_spec.
  destruct (forallb in_text_range y); reflexivity.
Qed.

Lemma forallb_map {A B : Type} (f : A -> B) (p : B -> bool) (l : list A) :
  forallb p (map f l) = forallb (fun a => p (f a)) l.
Proof.
  induction l as [|a l IH]; simpl; [reflexivity | rewrite IH; reflexivity].
Qed.

Lemma forallb_impl {A : Type} (p q : A -> bool) (l : list A) :
  (forall a, p a = true -> q a = true) ->
  forallb p l = true -> forallb q l = true.
Proof.
  intros Hpq. induction l as [|a l IH]; simpl; [reflexivity|].
  intros H. apply andb_true_iff in H. destruct H as [Ha Hl].
  rewrite (Hpq a Ha), (IH Hl). reflexivity.
Qed.

Lemma in_text_range_low (c : Z) : in_text_range c = true -> (c <? 0x80) = true.
Proof. unfold in_text_range, in_range. lia. Qed.

(** [maybestr] by the bytes alone: the text is returned exactly when every
    byte lies in [0x20, 0x7F], and it is those bytes read as ASCII. *)
Lemma maybestr_bytes (b : pybytes) :
  maybestr b = Ret (if all_in_range b then PStr (ascii_text b) else PNone).
Proof.
  rewrite maybestr_eq. f_equal. unfold all_in_range.
  destruct (forallb (fun x => in_text_range (byte_val x)) b) eqn:Hb.
  - rewrite bytes_decode_ascii.
    + unfold ascii_text. rewrite forallb_map, Hb. reflexivity.
    + revert Hb. apply forallb_impl. intros a. apply in_text_range_low.
  - destruct (bytes_decode b) as [y|e] eqn:Hd; [|reflexivity].
    destruct (forallb in_text_range y) eqn:Hy; [|reflexivity].
    assert (y = ascii_text b) as ->.
    { apply bytes_decode_low; [assumption|].
      revert Hy. apply forallb_impl. apply in_text_range_low. }
    unfold ascii_text in Hy. rewrite forallb_map in Hy. congruence.
Qed.

(** [maybestr] never raises, and [if xs:] succeeds exactly on the text
    path. *)
Lemma maybestr_total (b : pybytes) : exists xs, maybestr b = Ret xs.
Proof. rewrite maybestr_bytes. eauto. Qed.

Lemma ascii_text_length (b : pybytes) : List.length (ascii_text b) = List.length b.
Proof. unfold ascii_text. apply length_map. Qed.

Lemma maybestr_truthy (b : pybytes) (xs : pyval) :
  maybestr b = Ret xs -> truthy xs = text_path b.
Proof.
  rewrite maybestr_bytes. unfold text_path. intros H. inversion H; subst.
  destruct (all_in_range b); simpl.
  - rewrite ascii_text_length. rewrite andb_true_r. reflexivity.
  - rewrite andb_false_r. reflexivity.
Qed.

Lemma maybestr_text_path (b : pybytes) :
  text_path b = true -> maybestr b = Ret (PStr (ascii_text b)).
Proof.
  unfold text_path. intros H. apply andb_true_iff in H. destruct H as [_ H].
  rewrite maybestr_bytes, H. reflexivity.
Qed.

(** ** Base64 *)

(** Lists three elements at a time, as [b64encode] consumes them. *)
Lemma list_ind3 {A : Type} (P : list A -> Prop) :
  P [] ->
  (forall a, P [a]) ->
  (forall a b, P [a; b]) ->
  (forall a b c l, P l -> P (a :: b :: c :: l)) ->
  forall l, P l.
Proof.
  intros H0 H1 H2 H3 l.
  assert (P l /\ (forall a, P (a :: l)) /\ (forall a b, P (a :: b :: l))) as H;
    [|exact (proj1 H)].
  induction l as [|x l (IH0 & IH1 & IH2)].
  - auto.
  - repeat split; auto.
Qed.

Lemma b64_char_in (i : Z) : In (b64_char i) (b64_pad :: b64_alphabet).
Proof.
  unfold b64_char.
  destruct (nth_in_or_default (Z.to_nat i) b64_alphabet b64_pad) as [H|H].
  - right. exact H.
  - left. symmetry. exact H.
Qed.

Lemma b64_char_low (i : Z) : (byte_val (b64_char i) <? 0x80) = true.
Proof.
  assert (forallb (fun x => byte_val x <? 0x80) (b64_pad :: b64_alphabet) = true) as H
    by (vm_compute; reflexivity).
  rewrite forallb_forall in H. apply H. apply b64_char_in.
Qed.

Lemma b64encode_low (b : pybytes) :
  forallb (fun x => byte_val x <? 0x80) (b64encode b) = true.
Proof.
  induction b as [| b0 | b0 b1 | b0 b1 b2 r IH] using list_ind3;
    cbn [b64encode forallb]; cbv zeta;
    rewrite ?b64_char_low, ?IH; reflexivity.
Qed.

(** The [.decode()] of line 37 never raises: base64 text is ASCII. *)
Lemma b64encode_decode (b : pybytes) :
  bytes_decode (b64encode b) = Ret (b64_text b).
Proof. apply bytes_decode_ascii. apply b64encode_low. Qed.

Lemma b64_index_char (i : Z) : 0 <= i < 64 -> b64_index (b64_char i) = Some i.
Proof.
  intros Hi.
  assert (forallb (fun n => match b64_index (b64_char (Z.of_nat n)) with
                            | Some j => j =? Z.of_nat n
                            | None => false
                            end) (seq 0 64) = true) as H
    by (vm_compute; reflexivity).
  rewrite forallb_forall in H.
  specialize (H (Z.to_nat i)). rewrite Z2Nat.id in H by lia.
  destruct (b64_index (b64_char i)) as [j|].
  - f_equal. apply Z.eqb_eq. apply H. apply in_seq. lia.
  - discriminate H. apply in_seq. lia.
Qed.

Lemma b64_index_pad : b64_index b64_pad = None.
Proof. vm_compute. reflexivity. Qed.

Ltac b64_arith :=
  repeat match goal with
         | b : byte |- _ =>
             lazymatch goal with
             | H : 0 <= byte_val b < 256 |- _ => fail
             | _ => pose proof (byte_val_range b)
             end
         end;
  Z.div_mod_to_equations; lia.

Ltac b64_byte b :=
  match goal with
  | |- context [byte_of ?e] =>
      replace e with (byte_val b) by b64_arith; rewrite (byte_of_val b)
  end.

(** Decoding inverts encoding. *)
Lemma b64decode_encode (v : pybytes) : b64decode (b64encode v) = Ret v.
Proof.
  induction v as [| b0 | b0 b1 | b0 b1 b2 r IH] using list_ind3.
  - reflexivity.
  - cbn [b64encode]. cbv zeta. cbn [b64decode].
    rewrite !b64_index_char by b64_arith. rewrite b64_index_pad.
    rewrite byte_eqb_refl. cbn [andb].
    b64_byte b0. reflexivity.
  - cbn [b64encode]. cbv zeta. cbn [b64decode].
    rewrite !b64_index_char by b64_arith. rewrite b64_index_pad.
    rewrite byte_eqb_refl.
    b64_byte b0. b64_byte b1. reflexivity.
  - cbn [b64encode]. cbv zeta. cbn [b64decode].
    rewrite !b64_index_char by b64_arith.
    rewrite IH. cbn [bind].
    b64_byte b0. b64_byte b1. b64_byte b2. reflexivity.
Qed.

Lemma str_encode_ascii_text (b : pybytes) :
  forallb (fun x => byte_val x <? 0x80) b = true ->
  str_encode_ascii (ascii_text b) = Ret b.
Proof.
  induction b as [|b0 r IH]; simpl; intros H; [reflexivity|].
  apply andb_true_iff in H. destruct H as [H0 Hr].
  pose proof (byte_val_range b0) as R.
  unfold in_range.
  replace ((0 <=? byte_val b0) && (byte_val b0 <=? 0x7F)) with true by lia.
  fold (ascii_text r). rewrite (IH Hr). simpl. rewrite byte_of_val. reflexivity.
Qed.

(** Base64 text decodes back to the bytes it was made from. *)
Lemma b64decode_text (v : pybytes) : b64decode_str (b64_text v) = Ret v.
Proof.
  unfold b64decode_str, b64_text.
  rewrite str_encode_ascii_text by apply b64encode_low.
  simpl. apply b64decode_encode.
Qed.

(** ** Dictionaries *)

Lemma list_eqb_eq {A : Type} (eqb : A -> A -> bool) :
  (forall a b, eqb a b = true <-> a = b) ->
  forall l1 l2, list_eqb eqb l1 l2 = true <-> l1 = l2.
Proof.
  intros Heq. induction l1 as [|a l1 IH]; destruct l2 as [|b l2]; simpl;
    try (split; [discriminate | discriminate]); try (split; reflexivity).
  rewrite andb_true_iff, Heq, IH. split.
  - intros [-> ->]. reflexivity.
  - intros H. inversion H. auto.
Qed.

Lemma byte_eqb_eq (a b : byte) : Byte.eqb a b = true <-> a = b.
Proof.
  split; [apply Byte.byte_dec_bl | apply Byte.byte_dec_lb].
Qed.

Lemma key_eqb_norm (a b : pykey) : key_eqb a b = true <-> key_norm a = key_norm b.
Proof.
  destruct a as [|x|m|x|x], b as [|y|n|y|y]; simpl;
    try (split; [discriminate | discriminate]);
    try (split; [reflexivity | reflexivity]).
  - destruct x, y; simpl; split; (reflexivity || discriminate).
  - rewrite Z.eqb_eq. split; [intros ->; reflexivity | intros H; inversion H; reflexivity].
  - rewrite Z.eqb_eq. split; [intros ->; reflexivity | intros H; inversion H; reflexivity].
  - rewrite Z.eqb_eq. split; [intros ->; reflexivity | intros H; inversion H; reflexivity].
  - rewrite (list_eqb_eq _ byte_eqb_eq). split; [intros ->; reflexivity | intros H; inversion H; reflexivity].
  - rewrite (list_eqb_eq _ Z.eqb_eq). split; [intros ->; reflexivity | intros H; inversion H; reflexivity].
Qed.

Lemma key_eqb_refl (a : pykey) : key_eqb a a = true.
Proof. apply key_eqb_norm. reflexivity. Qed.

Lemma key_eqb_sym (a b : pykey) : key_eqb a b = key_eqb b a.
Proof.
  destruct (key_eqb a b) eqn:E1, (key_eqb b a) eqn:E2; try reflexivity.
  - apply key_eqb_norm in E1. symmetry in E1. apply key_eqb_norm in E1. congruence.
  - apply key_eqb_norm in E2. symmetry in E2. apply key_eqb_norm in E2. congruence.
Qed.

Lemma key_eqb_trans (a b c : pykey) :
  key_eqb a b = true -> key_eqb b c = true -> key_eqb a c = true.
Proof.
  rewrite !key_eqb_norm. congruence.
Qed.

(** Two keys equal to a third agree on every lookup. *)
Lemma key_eqb_congr (a b q : pykey) :
  key_eqb a b = true -> key_eqb a q = key_eqb b q.
Proof.
  intros Hab.
  destruct (key_eqb a q) eqn:E1, (key_eqb b q) eqn:E2; try reflexivity.
  - rewrite key_eqb_sym in Hab.
    rewrite (key_eqb_trans _ _ _ Hab E1) in E2. discriminate.
  - rewrite (key_eqb_trans _ _ _ Hab E2) in E1. discriminate.
Qed.

Lemma key_eqb_str (s t : pystr) : key_eqb (KStr s) (KStr t) = true <-> s = t.
Proof. simpl. apply list_eqb_eq. apply Z.eqb_eq. Qed.

(** After [d[k] = v], a lookup of a key equal to [k] finds [v] and every
    other lookup is unchanged. *)
Lemma dict_get_set (d : pydict) (k q : pykey) (v : pyval) :
  dict_get (dict_set d k v) q = if key_eqb k q then Some v else dict_get d q.
Proof.
  induction d as [|[k' v'] d IH]; simpl.
  - reflexivity.
  - destruct (key_eqb k' k) eqn:E; simpl.
    + rewrite (key_eqb_congr _ _ q E).
      destruct (key_eqb k q); reflexivity.
    + rewrite IH.
      destruct (key_eqb k' q) eqn:E1; [|reflexivity].
      destruct (key_eqb k q) eqn:E2; [|reflexivity].
      rewrite key_eqb_sym in E2.
      rewrite (key_eqb_trans _ _ _ E1 E2) in E. discriminate.
Qed.

(** Last write wins: after a sequence of stores, a lookup finds the value of
    the last store under an equal key, and what [d] held when there is
    none. *)
Lemma dict_get_apply_writes (ws : list (pykey * pyval)) :
  forall (d : pydict) (q : pykey),
  dict_get (apply_writes ws d) q =
  match last_write ws q with
  | Some v => Some v
  | None => dict_get d q
  end.
Proof.
  induction ws as [|[k v] ws IH]; intros d q; simpl; [reflexivity|].
  unfold apply_writes in *. simpl. rewrite IH.
  destruct (last_write ws q); [reflexivity|].
  rewrite dict_get_set. destruct (key_eqb k q); reflexivity.
Qed.

Lemma last_write_app (a b : list (pykey * pyval)) (q : pykey) :
  last_write (a ++ b) q =
  match last_write b q with
  | Some v => Some v
  | None => last_write a q
  end.
Proof.
  induction a as [|[k v] a IH]; simpl.
  - destruct (last_write b q); reflexivity.
  - rewrite IH. destruct (last_write b q); reflexivity.
Qed.

(** ** [jsonable] as a sequence of stores *)

(** The loop body stores the pair [(out_key k v, out_val v)]. *)
Lemma jsonable_entry_writes (out : pydict) (k : pykey) (v : pyval) :
  jsonable_entry jsonable out k v =
  (w <- out_val v ;; q <- out_key k v ;; Ret (dict_set out q w)).
Proof.
  destruct v as [| | | |b| | |d]; unfold jsonable_entry, out_val, out_key;
    try reflexivity.
  - destruct (maybestr_total b) as [xs Hxs]. rewrite Hxs. cbn [bind].
    rewrite (maybestr_truthy _ _ Hxs).
    destruct (text_path b) eqn:T.
    + rewrite (maybestr_text_path _ T) in Hxs. inversion Hxs; subst. reflexivity.
    + rewrite b64encode_decode. reflexivity.
Qed.

Lemma jsonable_items_writes (items : list (pykey * pyval)) :
  forall out : pydict,
  jsonable_items jsonable items out =
  (ws <- writes items ;; Ret (apply_writes ws out)).
Proof.
  induction items as [|[k v] rest IH]; intros out; cbn [jsonable_items writes].
  - reflexivity.
  - rewrite jsonable_entry_writes.
    destruct (out_val v) as [w|e]; [|reflexivity]. cbn [bind].
    destruct (out_key k v) as [q|e]; [|reflexivity]. cbn [bind].
    rewrite IH. destruct (writes rest) as [ws|e]; reflexivity.
Qed.

Lemma jsonable_dict (d : list (pykey * pyval)) :
  jsonable (PDict d) = (ws <- writes d ;; Ret (PDict (apply_writes ws []))).
Proof.
  cbn [jsonable]. rewrite jsonable_items_writes.
  destruct (writes d); reflexivity.
Qed.

Lemma jsonable_dict_inv (d : list (pykey * pyval)) (y : pyval) :
  jsonable (PDict d) = Ret y ->
  exists ws, writes d = Ret ws /\ y = PDict (apply_writes ws []).
Proof.
  rewrite jsonable_dict. intros H. bind_inv H. inversion H. eauto.
Qed.

Lemma writes_app_inv (pre : list (pykey * pyval)) :
  forall post ws, writes (pre ++ post) = Ret ws ->
  exists ws1 ws2, writes pre = Ret ws1 /\ writes post = Ret ws2 /\ ws = ws1 ++ ws2.
Proof.
  induction pre as [|[k v] pre IH]; intros post ws H.
  - exists [], ws. auto.
  - rewrite <- app_comm_cons in H. cbn [writes] in H.
    bind_inv H. rename a into w. bind_inv H. rename a into q. bind_inv H.
    inversion H; subst.
    destruct (IH _ _ Ha1) as (ws1 & ws2 & H1 & H2 & ->).
    exists ((q, w) :: ws1), ws2. cbn [writes]. rewrite Ha, Ha0, H1. auto.
Qed.

Lemma writes_cons_inv (k : pykey) (v : pyval) (post ws : list (pykey * pyval)) :
  writes ((k, v) :: post) = Ret ws ->
  exists q w ws2,
    out_key k v = Ret q /\ out_val v = Ret w /\ writes post = Ret ws2
    /\ ws = (q, w) :: ws2.
Proof.
  cbn [writes]. intros H.
  bind_inv H. rename a into w. bind_inv H. rename a into q. bind_inv H.
  inversion H; subst. eauto 8.
Qed.

(** Entries that store nothing under [q] leave no write to [q]. *)
Lemma no_write_last_write (q : pykey) (items : list (pykey * pyval)) :
  forall ws, writes items = Ret ws -> no_write_to q items ->
  last_write ws q = None.
Proof.
  induction items as [|[k v] rest IH]; intros ws H Hn.
  - simpl in H. inversion H. reflexivity.
  - apply writes_cons_inv in H. destruct H as (q' & w & ws' & Hq & Hw & Hr & ->).
    cbn [last_write]. rewrite (IH ws' Hr).
    + rewrite (Hn k v q' (or_introl eq_refl) Hq). reflexivity.
    + intros k0 v0 q0 Hin. apply Hn. right. exact Hin.
Qed.

(** The value under [q] in the result, when the entry [(k, v)] is the last
    one stored under [q]. *)
Lemma jsonable_last_entry (pre post : list (pykey * pyval)) (k q : pykey)
      (v w : pyval) (out : pydict) :
  jsonable (PDict (pre ++ (k, v) :: post)) = Ret (PDict out) ->
  out_key k v = Ret q -> out_val v = Ret w ->
  no_write_to q post ->
  dict_get out q = Some w.
Proof.
  intros H Hq Hw Hn.
  apply jsonable_dict_inv in H. destruct H as (ws & H & Hout).
  inversion Hout; subst out.
  apply writes_app_inv in H. destruct H as (ws1 & ws2 & H1 & H2 & ->).
  apply writes_cons_inv in H2. destruct H2 as (q' & w' & ws3 & Hq' & Hw' & H3 & ->).
  rewrite Hq in Hq'. rewrite Hw in Hw'. inversion Hq'; inversion Hw'; subst.
  rewrite dict_get_apply_writes, last_write_app. cbn [last_write].
  rewrite (no_write_last_write _ _ _ H3 Hn), key_eqb_refl. reflexivity.
Qed.

(** A key that no entry stores is absent from the result. *)
Lemma jsonable_absent_key (items : list (pykey * pyval)) (q : pykey) (out : pydict) :
  jsonable (PDict items) = Ret (PDict out) ->
  no_write_to q items ->
  dict_get out q = None.
Proof.
  intros H Hn.
  apply jsonable_dict_inv in H. destruct H as (ws & H & Hout).
  inversion Hout; subst out.
  rewrite dict_get_apply_writes, (no_write_last_write _ _ _ H Hn). reflexivity.
Qed.

(** ** Induction on values, through sequences and mapping values *)

Section PyvalInduction.

Variable P : pyval -> Prop.
Hypothesis HNone : P PNone.
Hypothesis HBool : forall b, P (PBool b).
Hypothesis HInt : forall n, P (PInt n).
Hypothesis HFloat : forall bits, P (PFloat bits).
Hypothesis HBytes : forall b, P (PBytes b).
Hypothesis HStr : forall s, P (PStr s).
Hypothesis HList : forall l, Forall P l -> P (PList l).
Hypothesis HDict : forall d, Forall (fun kv => P (snd kv)) d -> P (PDict d).

Fixpoint pyval_nested_ind (x : pyval) : P x :=
  match x with
  | PNone => HNone
  | PBool b => HBool b
  | PInt n => HInt n
  | PFloat bits => HFloat bits
  | PBytes b => HBytes b
  | PStr s => HStr s
  | PList l =>
      HList l
        ((fix go (l : list pyval) : Forall P l :=
            match l with
            | [] => Forall_nil P
            | a :: l' => Forall_cons a (pyval_nested_ind a) (go l')
            end) l)
  | PDict d =>
      HDict d
        ((fix go (d : list (pykey * pyval)) : Forall (fun kv => P (snd kv)) d :=
            match d with
            | [] => Forall_nil _
            | kv :: d' => Forall_cons kv (pyval_nested_ind (snd kv)) (go d')
            end) d)
  end.

End PyvalInduction.

(** ** No error on text-keyed input *)

Lemma writes_total (d : list (pykey * pyval)) :
  Forall (fun kv => exists q w, out_key (fst kv) (snd kv) = Ret q
                                /\ out_val (snd kv) = Ret w) d ->
  exists ws, writes d = Ret ws.
Proof.
  induction 1 as [|[k v] d (q & w & Hq & Hw) _ (ws & IH)]; cbn [writes].
  - eauto.
  - simpl in Hq, Hw. rewrite Hw, Hq, IH. simpl. eauto.
Qed.

Lemma jsonable_text_keys (x : pyval) :
  text_keys x = true -> exists y, jsonable x = Ret y.
Proof.
  induction x as [| | | | | | l _ | d IH] using pyval_nested_ind;
    intros Ht; try (eexists; reflexivity).
  rewrite jsonable_dict.
  destruct (writes_total d) as [ws Hws]; [|rewrite Hws; simpl; eauto].
  cbn [text_keys] in Ht. rewrite forallb_forall in Ht.
  rewrite Forall_forall in IH |- *. intros [k v] Hin. cbn [fst snd].
  specialize (Ht _ Hin). cbn [fst snd] in Ht.
  apply andb_true_iff in Ht. destruct Ht as [Hk Hv].
  destruct k as [| | | |s]; try discriminate.
  destruct (is_bytes v) eqn:Hb.
  - destruct v; try discriminate. simpl.
    destruct (text_path b); eauto.
  - destruct (IH _ Hin Hv) as [y Hy]. cbn [snd] in Hy.
    exists (KStr s), y. destruct v; try discriminate; auto.
Qed.

(** ** Facts about the stored pairs *)

Lemma key_eqb_str_app (a s : pystr) :
  s <> [] -> key_eqb (KStr a) (KStr (a ++ s)) = false.
Proof.
  intros Hs. destruct (key_eqb (KStr a) (KStr (a ++ s))) eqn:E; [|reflexivity].
  apply key_eqb_str in E. exfalso. apply Hs.
  apply (app_inv_head a). rewrite app_nil_r. symmetry. exact E.
Qed.

Lemma all_in_range_false (v : pybytes) :
  (exists b, In b v /\ in_text_range (byte_val b) = false)
  \/ (exists e, bytes_decode v = Raise e) ->
  all_in_range v = false.
Proof.
  intros H. destruct (all_in_range v) eqn:E; [exfalso|reflexivity].
  destruct H as [(b & Hin & Hb) | (e & He)].
  - unfold all_in_range in E. rewrite forallb_forall in E.
    rewrite (E b Hin) in Hb. discriminate.
  - rewrite bytes_decode_ascii in He; [discriminate|].
    revert E. apply forallb_impl. intros a. apply in_text_range_low.
Qed.

Lemma text_path_false (v : pybytes) :
  all_in_range v = false -> text_path v = false.
Proof. unfold text_path. intros ->. apply andb_false_r. Qed.

(** [jsonable] returns its argument or a mapping, so never a [bytes]
    object for an argument that is not one. *)
Lemma jsonable_not_bytes (v w : pyval) :
  jsonable v = Ret w -> is_bytes v = false -> is_bytes w = false.
Proof.
  destruct v; intros H Hb; try (inversion H; subst; reflexivity || exact Hb).
  apply jsonable_dict_inv in H. destruct H as (ws & _ & ->). reflexivity.
Qed.

Lemma out_val_not_bytes (v w : pyval) : out_val v = Ret w -> is_bytes w = false.
Proof.
  destruct (is_bytes v) eqn:Hb.
  - destruct v; try discriminate. simpl.
    destruct (text_path b); intros H; inversion H; reflexivity.
  - intros H. apply (jsonable_not_bytes v); [|exact Hb].
    destruct v; try discriminate; exact H.
Qed.

Lemma last_write_in (ws : list (pykey * pyval)) (q : pykey) (w : pyval) :
  last_write ws q = Some w -> exists k, In (k, w) ws.
Proof.
  induction ws as [|[k v] ws IH]; simpl; [discriminate|].
  destruct (last_write ws q) as [w'|].
  - intros H. inversion H; subst. destruct (IH eq_refl) as [k' Hk]. eauto.
  - destruct (key_eqb k q); [|discriminate].
    intros H. inversion H; subst. eauto.
Qed.

Lemma writes_not_bytes (items : list (pykey * pyval)) :
  forall ws, writes items = Ret ws ->
  forall k w, In (k, w) ws -> is_bytes w = false.
Proof.
  induction items as [|[k v] rest IH]; intros ws H k0 w0 Hin.
  - simpl in H. inversion H; subst. destruct Hin.
  - apply writes_cons_inv in H. destruct H as (q & w & ws' & Hq & Hw & Hr & ->).
    destruct Hin as [Heq | Hin].
    + inversion Heq; subst. apply (out_val_not_bytes _ _ Hw).
    + apply (IH _ Hr _ _ Hin).
Qed.

(** No value of a mapping returned by [jsonable] is a [bytes] object. *)
Lemma jsonable_no_bytes_value (items : list (pykey * pyval)) (out : pydict)
      (q : pykey) (w : pyval) :
  jsonable (PDict items) = Ret (PDict out) ->
  dict_get out q = Some w -> is_bytes w = false.
Proof.
  intros H Hg.
  apply jsonable_dict_inv in H. destruct H as (ws & H & Hout).
  inversion Hout; subst out.
  rewrite dict_get_apply_writes in Hg.
  destruct (last_write ws q) as [w'|] eqn:E; [|discriminate].
  inversion Hg; subst.
  destruct (last_write_in _ _ _ E) as [k Hk].
  apply (writes_not_bytes _ _ H _ _ Hk).
Qed.

(** ** The top-level loop *)

(** A [while True] loop whose body never breaks can only end by an
    exception. *)
Lemma while_true_no_break {S : Type} (body : S -> S * signal) :
  (forall s, snd (body s) <> Break) ->
  forall fuel s s' e, while_true fuel body s = Some (s', e) ->
  exists x, e = Uncaught x.
Proof.
  intros Hb. induction fuel as [|n IH]; intros s s' e H; simpl in H.
  - discriminate.
  - specialize (Hb s). destruct (body s) as [s1 sg]. simpl in Hb.
    destruct sg as [| |x].
    + apply (IH _ _ _ H).
    + contradiction.
    + inversion H. eauto.
Qed.

Lemma main_body_no_break (load : decoder) (p : process) :
  snd (main_body load p) <> Break.
Proof.
  unfold main_body.
  destruct (load (bstdin p)) as [[ob rest]|e]; [|simpl; discriminate].
  destruct (jsonable ob) as [j|e]; [|simpl; discriminate].
  destruct (json_ok j); simpl; discriminate.
Qed.

(** One pass that prints a line. *)
Lemma run_line (load : decoder) (fuel : nat) (p : process)
      (ob j : pyval) (rest : list byte) :
  load (bstdin p) = Ret (ob, rest) ->
  jsonable ob = Ret j ->
  json_ok j = true ->
  run load (S fuel) p
  = run load fuel (mkProcess rest (stdout p ++ [EvJson j; EvNewline])).
Proof.
  intros Hl Hj Hok. unfold run. cbn [while_true]. unfold main_body.
  rewrite Hl, Hj, Hok. reflexivity.
Qed.

(** A decoder that consumes input on every item lets the loop end: the
    input length bounds the number of passes. *)
Lemma run_terminates (load : decoder) :
  (forall bs ob rest, load bs = Ret (ob, rest) ->
                      (List.length rest < List.length bs)%nat) ->
  forall fuel p, (List.length (bstdin p) < fuel)%nat ->
  exists p' e, run load fuel p = Some (p', e).
Proof.
  intros Hc. induction fuel as [|n IH]; intros p Hlen; [lia|].
  unfold run. cbn [while_true]. unfold main_body.
  destruct (load (bstdin p)) as [[ob rest]|e] eqn:Hl; [|eauto].
  apply Hc in Hl.
  destruct (jsonable ob) as [j|e]; [|eauto].
  destruct (json_ok j); [|eauto].
  apply IH. simpl. lia.
Qed.

(** ** The decoder instance consumes input *)

Lemma read_uint_length (n : nat) :
  forall bs acc a r, read_uint n bs acc = Ret (a, r) ->
  (List.length r <= List.length bs)%nat.
Proof.
  induction n as [|n IH]; intros bs acc a r H; simpl in H.
  - inversion H. lia.
  - destruct bs as [|b bs]; [discriminate|].
    apply IH in H. simpl. lia.
Qed.

Lemma read_arg_length (info : Z) (r : list byte) (a : Z) (r1 : list byte) :
  read_arg info r = Ret (a, r1) -> (List.length r1 <= List.length r)%nat.
Proof.
  unfold read_arg.
  repeat match goal with
         | |- context [if ?c then _ else _] => destruct c
         end;
    intros H; try discriminate;
    try (apply read_uint_length in H; exact H).
  inversion H. lia.
Qed.

Lemma read_bytes_length (n : Z) (bs : list byte) (x : pybytes) (r : list byte) :
  read_bytes n bs = Ret (x, r) -> (List.length r <= List.length bs)%nat.
Proof.
  unfold read_bytes. destruct (Z.of_nat (List.length bs) <? n); [discriminate|].
  intros H. inversion H. rewrite length_skipn. lia.
Qed.

Section ItemConsumes.

Variable item : list byte -> res (pyval * list byte).
Hypothesis item_consumes :
  forall bs v r, item bs = Ret (v, r) -> (List.length r < List.length bs)%nat.

Lemma cbor_elems_length (n : nat) :
  forall r l r', cbor_elems item n r = Ret (l, r') ->
  (List.length r' <= List.length r)%nat.
Proof.
  induction n as [|n IH]; intros r l r' H; simpl in H.
  - inversion H. lia.
  - bind_inv H. destruct a as [v r1]. apply item_consumes in Ha.
    bind_inv H. destruct a as [l1 r2]. apply IH in Ha0.
    inversion H; subst. simpl in *. lia.
Qed.

Lemma cbor_pairs_length (n : nat) :
  forall r out d r', cbor_pairs item n r out = Ret (d, r') ->
  (List.length r' <= List.length r)%nat.
Proof.
  induction n as [|n IH]; intros r out d r' H; simpl in H.
  - inversion H. lia.
  - bind_inv H. destruct a as [k r1]. apply item_consumes in Ha.
    bind_inv H. bind_inv H. destruct a0 as [v r2]. apply item_consumes in Ha1.
    apply IH in H. simpl in *. lia.
Qed.

End ItemConsumes.

Lemma cbor_item_consumes (depth : nat) :
  forall bs v rest, cbor_item depth bs = Ret (v, rest) ->
  (List.length rest < List.length bs)%nat.
Proof.
  induction depth as [|d IH]; intros bs v rest H; [discriminate|].
  cbn [cbor_item] in H.
  destruct bs as [|ib r]; [discriminate|].
  cbv zeta in H. bind_inv H. destruct a as [arg r1].
  apply read_arg_length in Ha. cbn [fst snd] in H. cbn [List.length].
  destruct (byte_val ib / 32 =? 0); [inversion H; subst; lia|].
  destruct (byte_val ib / 32 =? 1); [inversion H; subst; lia|].
  destruct (byte_val ib / 32 =? 2).
  { bind_inv H. destruct a as [x r2]. apply read_bytes_length in Ha0.
    inversion H; subst. simpl. lia. }
  destruct (byte_val ib / 32 =? 3).
  { bind_inv H. destruct a as [x r2]. apply read_bytes_length in Ha0.
    bind_inv H. inversion H; subst. simpl. lia. }
  destruct (byte_val ib / 32 =? 4).
  { destruct (Z.of_nat (List.length r1) <? arg); [discriminate|].
    bind_inv H. destruct a as [l r2].
    apply (cbor_elems_length _ IH) in Ha0.
    inversion H; subst. simpl. lia. }
  destruct (byte_val ib / 32 =? 5).
  { destruct (Z.of_nat (List.length r1) <? arg); [discriminate|].
    bind_inv H. destruct a as [m r2].
    apply (cbor_pairs_length _ IH) in Ha0.
    inversion H; subst. simpl. lia. }
  destruct (byte_val ib / 32 =? 7); [|discriminate].
  repeat match type of H with
         | (if ?c then _ else _) = _ => destruct c
         end;
    try discriminate; inversion H; subst; lia.
Qed.

Lemma cbor_load_consumes (bs : list byte) (ob : pyval) (rest : list byte) :
  cbor_load bs = Ret (ob, rest) -> (List.length rest < List.length bs)%nat.
Proof. apply cbor_item_consumes. Qed.

(** * The claims *)

(** C1, as stated, fails on the code.  The empty byte string has all its
    bytes in range and is valid UTF-8, yet the mapping of [k] to the empty
    byte string becomes the mapping of [k_b64] to the empty text.  And when
    another entry is stored under the same key, the last store wins:
    [{'x': b'A', 'x_b64': 1}] keeps a key [x_b64], and in
    [{'x_b64': b'A', 'x': b'\xff'}] the text [A] is overwritten. *)
Lemma text_entry_counterexample :
  all_in_range [] = true
  /\ bytes_decode [] = Ret []
  /\ jsonable (PDict [(KStr (str_lit "k"), PBytes [])])
     = Ret (PDict [(KStr (str_lit "k_b64"), PStr [])])
  /\ dict_get [(KStr (str_lit "k_b64"), PStr [])] (KStr (str_lit "k"))
     <> Some (PStr [])
  /\ dict_get [(KStr (str_lit "k_b64"), PStr [])] (KStr (str_lit "k_b64"))
     <> None
  /\ jsonable (PDict [(KStr (str_lit "x"), PBytes [x41]);
                      (KStr (str_lit "x_b64"), PInt 1)])
     = Ret (PDict [(KStr (str_lit "x"), PStr (str_lit "A"));
                   (KStr (str_lit "x_b64"), PInt 1)])
  /\ jsonable (PDict [(KStr (str_lit "x_b64"), PBytes [x41]);
                      (KStr (str_lit "x"), PBytes [xff])])
     = Ret (PDict [(KStr (str_lit "x_b64"), PStr (str_lit "/w=="))]).
Proof.
  split; [reflexivity|].
  split; [reflexivity|].
  split; [reflexivity|].
  split; [vm_compute; discriminate|].
  split; [vm_compute; discriminate|].
  split; reflexivity.
Qed.

(** C1, amended.  For every mapping on which [jsonable] returns, and every
    entry [(k, v)] of it where [v] is a non-empty byte string with all its
    bytes in [0x20, 0x7F] (such bytes always decode): the result holds
    [(k, decoded text of v)] unless a later entry is stored under [k], and it
    holds no key [k + '_b64'] unless another entry is stored under that
    key. *)
Theorem text_entry_stored
        (pre post : list (pykey * pyval)) (k : pykey) (v : pybytes) (out : pydict) :
  v <> [] ->
  all_in_range v = true ->
  jsonable (PDict (pre ++ (k, PBytes v) :: post)) = Ret (PDict out) ->
  bytes_decode v = Ret (ascii_text v)
  /\ (no_write_to k post -> dict_get out k = Some (PStr (ascii_text v)))
  /\ (forall kb, key_add_str k (str_lit "_b64") = Ret kb ->
      no_write_to kb (pre ++ post) -> dict_get out kb = None).
Proof.
  intros Hne Hr Hj.
  assert (text_path v = true) as Hp.
  { unfold text_path. rewrite Hr. destruct v; [contradiction | reflexivity]. }
  split.
  { apply bytes_decode_ascii. revert Hr. apply forallb_impl.
    intros a. apply in_text_range_low. }
  split.
  - intros Hn. apply (jsonable_last_entry pre post k k (PBytes v)); auto.
    + simpl. rewrite Hp. reflexivity.
    + simpl. rewrite Hp. reflexivity.
  - intros kb Hkb Hn.
    apply (jsonable_absent_key _ kb _ Hj).
    intros k0 v0 q0 Hin Hq0.
    apply in_app_or in Hin. destruct Hin as [Hin | [Heq | Hin]].
    + apply (Hn k0 v0 q0); [apply in_or_app; left; exact Hin | exact Hq0].
    + inversion Heq; subst k0 v0. simpl in Hq0. rewrite Hp in Hq0.
      inversion Hq0; subst q0.
      destruct k as [| | | |s]; try discriminate.
      simpl in Hkb. inversion Hkb. apply key_eqb_str_app. discriminate.
    + apply (Hn k0 v0 q0); [apply in_or_app; right; exact Hin | exact Hq0].
Qed.

Lemma text_entry_stored_witness :
  bytes_decode (list_byte_of_string "Alice") = Ret (str_lit "Alice")
  /\ dict_get [(KStr (str_lit "name"), PStr (str_lit "Alice"))]
              (KStr (str_lit "name"))
     = Some (PStr (str_lit "Alice"))
  /\ dict_get [(KStr (str_lit "name"), PStr (str_lit "Alice"))]
              (KStr (str_lit "name_b64"))
     = None.
Proof.
  destruct (text_entry_stored [] [] (KStr (str_lit "name"))
              (list_byte_of_string "Alice")
              [(KStr (str_lit "name"), PStr (str_lit "Alice"))])
    as (H1 & H2 & H3).
  - discriminate.
  - reflexivity.
  - reflexivity.
  - split; [exact H1|]. split.
    + apply H2. intros k v q [].
    + apply (H3 _ eq_refl). intros k v q [].
Defined.

(** C2, as stated, fails on the code: in [{'x': b'\xff', 'x_b64': 1}] the
    later entry is stored under [x_b64] too, and the result is
    [{'x_b64': 1}], without the base64 text of [b'\xff']. *)
Lemma binary_entry_counterexample :
  in_text_range (byte_val xff) = false
  /\ jsonable (PDict [(KStr (str_lit "x"), PBytes [xff]);
                      (KStr (str_lit "x_b64"), PInt 1)])
     = Ret (PDict [(KStr (str_lit "x_b64"), PInt 1)])
  /\ b64_text [xff] = str_lit "/w=="
  /\ dict_get [(KStr (str_lit "x_b64"), PInt 1)] (KStr (str_lit "x_b64"))
     <> Some (PStr (b64_text [xff])).
Proof.
  split; [reflexivity|].
  split; [reflexivity|].
  split; [reflexivity|].
  vm_compute. discriminate.
Qed.

(** C2, amended.  For every mapping on which [jsonable] returns, and every
    entry [(k, v)] of it where [v] is a byte string with a byte outside
    [0x20, 0x7F] or that is not valid UTF-8: [k] is a text key, the result
    holds [(k + '_b64', standard base64 of v)] unless a later entry is stored
    under [k + '_b64'], it never holds [k] with the raw bytes, and it holds
    no key [k] at all unless another entry is stored under [k]. *)
Theorem binary_entry_stored
        (pre post : list (pykey * pyval)) (k : pykey) (v : pybytes) (out : pydict) :
  (exists b, In b v /\ in_text_range (byte_val b) = false)
  \/ (exists e, bytes_decode v = Raise e) ->
  jsonable (PDict (pre ++ (k, PBytes v) :: post)) = Ret (PDict out) ->
  exists s,
    k = KStr s
    /\ bytes_decode (b64encode v) = Ret (b64_text v)
    /\ (no_write_to (KStr (s ++ str_lit "_b64")) post ->
        dict_get out (KStr (s ++ str_lit "_b64")) = Some (PStr (b64_text v)))
    /\ dict_get out k <> Some (PBytes v)
    /\ (no_write_to k (pre ++ post) -> dict_get out k = None).
Proof.
  intros Hv Hj.
  assert (text_path v = false) as Hp
    by (apply text_path_false, all_in_range_false; exact Hv).
  assert (exists s, k = KStr s) as [s ->].
  { apply jsonable_dict_inv in Hj. destruct Hj as (ws & Hw & _).
    apply writes_app_inv in Hw. destruct Hw as (ws1 & ws2 & _ & Hw & _).
    apply writes_cons_inv in Hw. destruct Hw as (q & w & ws3 & Hq & _).
    simpl in Hq. rewrite Hp in Hq.
    destruct k as [| | | |s]; try discriminate. eauto. }
  exists s. split; [reflexivity|].
  split; [apply b64encode_decode|].
  split.
  - intros Hn.
    apply (jsonable_last_entry pre post (KStr s) _ (PBytes v)); auto.
    + simpl. rewrite Hp. reflexivity.
    + simpl. rewrite Hp. reflexivity.
  - split.
    + intros Hg. apply (jsonable_no_bytes_value _ _ _ _ Hj) in Hg. discriminate.
    + intros Hn. apply (jsonable_absent_key _ _ _ Hj).
      intros k0 v0 q0 Hin Hq0.
      apply in_app_or in Hin. destruct Hin as [Hin | [Heq | Hin]].
      * apply (Hn k0 v0 q0); [apply in_or_app; left; exact Hin | exact Hq0].
      * inversion Heq; subst k0 v0. simpl in Hq0. rewrite Hp in Hq0.
        inversion Hq0; subst q0.
        rewrite key_eqb_sym. apply key_eqb_str_app. discriminate.
      * apply (Hn k0 v0 q0); [apply in_or_app; right; exact Hin | exact Hq0].
Qed.

Lemma binary_entry_stored_witness :
  exists s,
    KStr (str_lit "blob") = KStr s
    /\ bytes_decode (b64encode [xff; xfe; x00]) = Ret (str_lit "//4A")
    /\ dict_get [(KStr (str_lit "blob_b64"), PStr (str_lit "//4A"))]
                (KStr (s ++ str_lit "_b64"))
       = Some (PStr (str_lit "//4A"))
    /\ dict_get [(KStr (str_lit "blob_b64"), PStr (str_lit "//4A"))]
                (KStr (str_lit "blob"))
       <> Some (PBytes [xff; xfe; x00])
    /\ dict_get [(KStr (str_lit "blob_b64"), PStr (str_lit "//4A"))]
                (KStr (str_lit "blob"))
       = None.
Proof.
  destruct (binary_entry_stored [] [] (KStr (str_lit "blob")) [xff; xfe; x00]
              [(KStr (str_lit "blob_b64"), PStr (str_lit "//4A"))])
    as (s & Hs & Hd & Hg & Hr & Ha).
  - left. exists xff. split; [left; reflexivity | reflexivity].
  - reflexivity.
  - exists s. split; [exact Hs|]. split; [exact Hd|].
    split; [apply Hg; intros k v q []|].
    split; [exact Hr|].
    apply Ha. intros k v q [].
Defined.

(** C3. For every value [x] that is not a mapping (a sequence, a bare byte
    string, a text string, a number, a boolean or null), [jsonable x]
    returns [x] itself: no element of a sequence is visited and no byte
    string is converted, at top level or inside a sequence. *)
Theorem jsonable_non_mapping_identity (x : pyval) :
  is_dict x = false -> jsonable x = Ret x.
Proof.
  intros Hx. destruct x as [| | | | | | l | d]; cbn [jsonable].
  all: try reflexivity.
  simpl in Hx. discriminate Hx.
Qed.

Lemma jsonable_non_mapping_identity_witness :
  jsonable (PList [PBytes [xff];
                   PDict [(KStr (str_lit "a"), PBytes [xff; xfe; x00])]])
  = Ret (PList [PBytes [xff];
                PDict [(KStr (str_lit "a"), PBytes [xff; xfe; x00])]])
  /\ jsonable (PBytes [xff]) = Ret (PBytes [xff]).
Proof.
  split; apply jsonable_non_mapping_identity; reflexivity.
Defined.

(** C4. For every byte string [x], [maybestr x] returns the decoded text of
    [x] exactly when UTF-8 decoding succeeds and every decoded code point
    lies in [0x20, 0x7F]; when decoding raises, or some code point falls
    outside the range, it returns [None]. *)
Theorem maybestr_decoded_text (x : pybytes) :
  (forall y, bytes_decode x = Ret y -> forallb in_text_range y = true ->
             maybestr x = Ret (PStr y))
  /\ (forall y, bytes_decode x = Ret y -> forallb in_text_range y = false ->
                maybestr x = Ret PNone)
  /\ (forall e, bytes_decode x = Raise e -> maybestr x = Ret PNone)
  /\ (forall y, maybestr x = Ret (PStr y) ->
                bytes_decode x = Ret y /\ forallb in_text_range y = true).
Proof.
  rewrite maybestr_eq.
  split; [intros y -> ->; reflexivity|].
  split; [intros y -> ->; reflexivity|].
  split; [intros e ->; reflexivity|].
  intros y H.
  destruct (bytes_decode x) as [y'|e]; [|discriminate].
  destruct (forallb in_text_range y') eqn:Hy; [|discriminate].
  inversion H; subst. split; [reflexivity | exact Hy].
Qed.

Lemma maybestr_decoded_text_witness :
  maybestr (list_byte_of_string "Alice") = Ret (PStr (str_lit "Alice"))
  /\ maybestr [x41; x0a] = Ret PNone
  /\ maybestr [xff; xfe; x00] = Ret PNone
  /\ maybestr [xc3; xa9] = Ret PNone
  /\ maybestr [x20; x7f] = Ret (PStr [0x20; 0x7F]).
Proof.
  split.
  { apply (proj1 (maybestr_decoded_text (list_byte_of_string "Alice")));
      reflexivity. }
  split.
  { apply (proj1 (proj2 (maybestr_decoded_text [x41; x0a])) [0x41; 0x0a]);
      reflexivity. }
  split.
  { apply (proj1 (proj2 (proj2 (maybestr_decoded_text [xff; xfe; x00])))
             UnicodeDecodeError).
    reflexivity. }
  split.
  { apply (proj1 (proj2 (maybestr_decoded_text [xc3; xa9])) [0xE9]);
      reflexivity. }
  apply (proj1 (maybestr_decoded_text [x20; x7f])); reflexivity.
Defined.

(** C5. For a mapping entry [(k, v)] whose value is the empty byte string,
    [maybestr] returns the decoded empty text, the test [if xs:] fails on
    it, and the loop body stores [k + '_b64'] with the empty text, not [k]
    with the empty text. *)
Theorem empty_bytes_take_base64_path (out : pydict) (s : pystr) :
  maybestr [] = Ret (PStr [])
  /\ truthy (PStr []) = false
  /\ jsonable_entry jsonable out (KStr s) (PBytes [])
     = Ret (dict_set out (KStr (s ++ str_lit "_b64")) (PStr []))
  /\ jsonable (PDict [(KStr s, PBytes [])])
     = Ret (PDict [(KStr (s ++ str_lit "_b64"), PStr [])])
  /\ dict_get [(KStr (s ++ str_lit "_b64"), PStr [])] (KStr s) = None.
Proof.
  assert (jsonable_entry jsonable out (KStr s) (PBytes [])
          = Ret (dict_set out (KStr (s ++ str_lit "_b64")) (PStr []))) as Hentry.
  { rewrite jsonable_entry_writes. reflexivity. }
  split; [rewrite maybestr_eq; reflexivity|].
  split; [reflexivity|].
  split; [exact Hentry|].
  split.
  - rewrite jsonable_dict. reflexivity.
  - cbn [dict_get]. rewrite key_eqb_sym, key_eqb_str_app; [reflexivity|].
    discriminate.
Qed.

(** C6, as stated, fails on the code: in [{'x': b'\xff', 'x_b64': 'QUJD'}]
    the entry under [x] takes the base64 path, but the later entry is stored
    under [x_b64] too; the text under [x_b64] in the result is [QUJD], which
    decodes to [b'ABC'] and not to [b'\xff']. *)
Lemma base64_round_trip_counterexample :
  maybestr [xff] = Ret PNone
  /\ truthy PNone = false
  /\ jsonable (PDict [(KStr (str_lit "x"), PBytes [xff]);
                      (KStr (str_lit "x_b64"), PStr (str_lit "QUJD"))])
     = Ret (PDict [(KStr (str_lit "x_b64"), PStr (str_lit "QUJD"))])
  /\ dict_get [(KStr (str_lit "x_b64"), PStr (str_lit "QUJD"))]
              (KStr (str_lit "x_b64"))
     = Some (PStr (str_lit "QUJD"))
  /\ b64decode_str (str_lit "QUJD") = Ret (list_byte_of_string "ABC")
  /\ b64decode_str (str_lit "QUJD") <> Ret [xff].
Proof.
  split; [reflexivity|].
  split; [reflexivity|].
  split; [reflexivity|].
  split; [reflexivity|].
  split; [reflexivity|].
  vm_compute. discriminate.
Qed.

(** C6, amended.  For every mapping on which [jsonable] returns, and every
    entry [(k, v)] of it that takes the base64 path (the test [if xs:] fails
    on what [maybestr v] returns): [k] is a text key and, unless a later
    entry is stored under [k + '_b64'], the result holds under [k + '_b64']
    the base64 text of [v], and standard base64 decoding of that text gives
    back exactly [v]. *)
Theorem base64_entry_round_trip
        (pre post : list (pykey * pyval)) (k : pykey) (v : pybytes)
        (xs : pyval) (out : pydict) :
  maybestr v = Ret xs ->
  truthy xs = false ->
  jsonable (PDict (pre ++ (k, PBytes v) :: post)) = Ret (PDict out) ->
  exists s,
    k = KStr s
    /\ (no_write_to (KStr (s ++ str_lit "_b64")) post ->
        exists t,
          bytes_decode (b64encode v) = Ret t
          /\ dict_get out (KStr (s ++ str_lit "_b64")) = Some (PStr t)
          /\ b64decode_str t = Ret v).
Proof.
  intros Hm Ht Hj.
  assert (text_path v = false) as Hp
    by (rewrite <- (maybestr_truthy _ _ Hm); exact Ht).
  assert (exists s, k = KStr s) as [s ->].
  { apply jsonable_dict_inv in Hj. destruct Hj as (ws & Hw & _).
    apply writes_app_inv in Hw. destruct Hw as (ws1 & ws2 & _ & Hw & _).
    apply writes_cons_inv in Hw. destruct Hw as (q & w & ws3 & Hq & _).
    simpl in Hq. rewrite Hp in Hq.
    destruct k as [| | | |s]; try discriminate. eauto. }
  exists s. split; [reflexivity|].
  intros Hn. exists (b64_text v).
  split; [apply b64encode_decode|].
  split; [|apply b64decode_text].
  apply (jsonable_last_entry pre post (KStr s) _ (PBytes v)); auto.
  - simpl. rewrite Hp. reflexivity.
  - simpl. rewrite Hp. reflexivity.
Qed.

Lemma base64_entry_round_trip_witness :
  exists s,
    KStr (str_lit "blob") = KStr s
    /\ exists t,
         bytes_decode (b64encode [xff; xfe; x00]) = Ret t
         /\ dict_get [(KStr (str_lit "n"), PInt 1);
                      (KStr (str_lit "blob_b64"), PStr (str_lit "//4A"));
                      (KStr (str_lit "e_b64"), PStr [])]
                     (KStr (s ++ str_lit "_b64"))
            = Some (PStr t)
         /\ b64decode_str t = Ret [xff; xfe; x00].
Proof.
  destruct (base64_entry_round_trip
              [(KStr (str_lit "n"), PInt 1)]
              [(KStr (str_lit "e"), PBytes [])]
              (KStr (str_lit "blob")) [xff; xfe; x00] PNone
              [(KStr (str_lit "n"), PInt 1);
               (KStr (str_lit "blob_b64"), PStr (str_lit "//4A"));
               (KStr (str_lit "e_b64"), PStr [])])
    as (s & Hs & H).
  - reflexivity.
  - reflexivity.
  - reflexivity.
  - exists s. split; [exact Hs|]. apply H.
    inversion Hs; subst s.
    intros k v q [Heq | []] Hq. inversion Heq; subst k v.
    vm_compute in Hq. inversion Hq; subst q. reflexivity.
Defined.

(** C7. On normal input, where every mapping that [jsonable] visits has
    text keys, [jsonable] raises no error.  [maybestr] itself never raises:
    a decoding error inside it is caught, [maybestr] returns [None], and
    the entry is stored on the base64 path. *)
Theorem jsonable_raises_nothing_on_text_keys :
  (forall x, text_keys x = true -> exists y, jsonable x = Ret y)
  /\ (forall b, exists xs, maybestr b = Ret xs)
  /\ (forall b e, bytes_decode b = Raise e ->
        maybestr b = Ret PNone
        /\ forall out s,
             jsonable_entry jsonable out (KStr s) (PBytes b)
             = Ret (dict_set out (KStr (s ++ str_lit "_b64")) (PStr (b64_text b)))).
Proof.
  split; [exact jsonable_text_keys|].
  split; [exact maybestr_total|].
  intros b e He. split.
  - rewrite maybestr_eq, He. reflexivity.
  - intros out s. rewrite jsonable_entry_writes.
    assert (text_path b = false) as Hp.
    { apply text_path_false, all_in_range_false. right. eauto. }
    simpl. rewrite Hp. reflexivity.
Qed.

Lemma jsonable_raises_nothing_on_text_keys_witness :
  (exists y,
     jsonable (PDict [(KStr (str_lit "a"), PBytes [xc3]);
                      (KStr (str_lit "m"),
                       PDict [(KStr (str_lit "b"), PBytes [xff; xfe])])])
     = Ret y)
  /\ bytes_decode [xc3] = Raise UnicodeDecodeError
  /\ maybestr [xc3] = Ret PNone
  /\ jsonable_entry jsonable [] (KStr (str_lit "a")) (PBytes [xc3])
     = Ret [(KStr (str_lit "a_b64"), PStr (str_lit "ww=="))].
Proof.
  destruct jsonable_raises_nothing_on_text_keys as (H1 & _ & H3).
  split; [apply H1; reflexivity|].
  split; [reflexivity|].
  destruct (H3 [xc3] UnicodeDecodeError eq_refl) as [Hm He].
  split; [exact Hm | exact (He [] (str_lit "a"))].
Defined.

(** C8, as stated, fails on the code: in [{'x_b64': 1, 'x': b'\xff'}] the
    later entry is stored under [x_b64] as well, and the result is
    [{'x_b64': '/w=='}], without the value [1]. *)
Lemma other_entry_counterexample :
  is_bytes (PInt 1) = false
  /\ jsonable (PInt 1) = Ret (PInt 1)
  /\ jsonable (PDict [(KStr (str_lit "x_b64"), PInt 1);
                      (KStr (str_lit "x"), PBytes [xff])])
     = Ret (PDict [(KStr (str_lit "x_b64"), PStr (str_lit "/w=="))])
  /\ dict_get [(KStr (str_lit "x_b64"), PStr (str_lit "/w=="))]
              (KStr (str_lit "x_b64"))
     <> Some (PInt 1).
Proof.
  split; [reflexivity|].
  split; [reflexivity|].
  split; [reflexivity|].
  vm_compute. discriminate.
Qed.

(** C8, amended.  For every mapping on which [jsonable] returns, and every
    entry [(k, v)] of it where [v] is not a byte string: [jsonable v]
    returns, and the result holds [(k, jsonable v)] under the unchanged key
    [k] unless a later entry is stored under [k]. *)
Theorem other_entry_stored
        (pre post : list (pykey * pyval)) (k : pykey) (v : pyval) (out : pydict) :
  is_bytes v = false ->
  jsonable (PDict (pre ++ (k, v) :: post)) = Ret (PDict out) ->
  exists v',
    jsonable v = Ret v'
    /\ (no_write_to k post -> dict_get out k = Some v').
Proof.
  intros Hb Hj.
  assert (out_key k v = Ret k) as Hk by (destruct v; try discriminate; reflexivity).
  assert (out_val v = jsonable v) as Hv by (destruct v; try discriminate; reflexivity).
  pose proof Hj as Hw.
  apply jsonable_dict_inv in Hw. destruct Hw as (ws & Hw & _).
  apply writes_app_inv in Hw. destruct Hw as (ws1 & ws2 & _ & Hw & _).
  apply writes_cons_inv in Hw. destruct Hw as (q & w & ws3 & _ & Hw & _).
  exists w. rewrite <- Hv. split; [exact Hw|].
  intros Hn. apply (jsonable_last_entry pre post k k v); auto.
Qed.

Lemma other_entry_stored_witness :
  exists v',
    jsonable (PDict [(KStr (str_lit "b"), PBytes [xff])]) = Ret v'
    /\ dict_get [(KStr (str_lit "n"), PInt 42);
                 (KStr (str_lit "m"),
                  PDict [(KStr (str_lit "b_b64"), PStr (str_lit "/w=="))])]
                (KStr (str_lit "m"))
       = Some v'.
Proof.
  destruct (other_entry_stored
              [(KStr (str_lit "n"), PInt 42)] []
              (KStr (str_lit "m"))
              (PDict [(KStr (str_lit "b"), PBytes [xff])])
              [(KStr (str_lit "n"), PInt 42);
               (KStr (str_lit "m"),
                PDict [(KStr (str_lit "b_b64"), PStr (str_lit "/w=="))])])
    as (v' & Hv & Hg).
  - reflexivity.
  - reflexivity.
  - exists v'. split; [exact Hv|]. apply Hg. intros k v q [].
Defined.

(** C9, as stated, fails on the code: on empty standard input the decoder
    raises [EOFError] at once; the loop has no handler, so the process ends
    with zero lines written but with status 1, not 0. *)
Lemma empty_stdin_counterexample :
  main cbor_load 1 [] = Some (mkProcess [] [], Uncaught EOFError)
  /\ lines [] = 0%nat
  /\ exit_status (Uncaught EOFError) <> 0
  /\ (forall (load : decoder) fuel p, main load fuel [] <> Some (p, Finished)).
Proof.
  split; [reflexivity|].
  split; [reflexivity|].
  split; [simpl; discriminate|].
  intros load fuel p H.
  destruct (while_true_no_break (main_body load) (main_body_no_break load)
              _ _ _ _ H) as [x Hx].
  discriminate Hx.
Qed.

(** C9, amended.  The loop has no normal exit: for every decoder, whenever
    the process ends it ends through an uncaught exception, with exit
    status 1.  An item that is decoded, transformed and printed adds one
    line and the loop goes on.  When the decoder raises where an item should
    start ([EOFError] at a clean end of input between items, or a failure on
    malformed input), the process ends there with the lines written so far.
    With a decoder that raises [EOFError] on empty input and consumes input
    on every item, the process does end on every input, and on empty input
    it ends after zero lines with a non-zero status. *)
Theorem main_loop_exit (load : decoder) :
  load [] = Raise EOFError ->
  (forall bs ob rest, load bs = Ret (ob, rest) ->
                      (List.length rest < List.length bs)%nat) ->
  (forall fuel input p e,
      main load fuel input = Some (p, e) ->
      exit_status e = 1 /\ exists x, e = Uncaught x)
  /\ (forall fuel p ob rest j,
         load (bstdin p) = Ret (ob, rest) ->
         jsonable ob = Ret j ->
         json_ok j = true ->
         run load (S fuel) p
         = run load fuel (mkProcess rest (stdout p ++ [EvJson j; EvNewline])))
  /\ (forall fuel p x,
         load (bstdin p) = Raise x ->
         run load (S fuel) p = Some (p, Uncaught x))
  /\ (forall input, exists p x,
         main load (S (List.length input)) input = Some (p, Uncaught x))
  /\ (forall fuel,
         main load (S fuel) [] = Some (mkProcess [] [], Uncaught EOFError)
         /\ lines (stdout (mkProcess [] [])) = 0%nat
         /\ exit_status (Uncaught EOFError) <> 0).
Proof.
  intros Heof Hcons.
  assert (forall fuel input p e,
             main load fuel input = Some (p, e) -> exists x, e = Uncaught x) as Hend.
  { intros fuel input p e H.
    apply (while_true_no_break (main_body load) (main_body_no_break load) _ _ _ _ H). }
  split.
  { intros fuel input p e H. destruct (Hend _ _ _ _ H) as [x ->].
    split; [reflexivity | eauto]. }
  split.
  { intros fuel p ob rest j. apply run_line. }
  split.
  { intros fuel p x Hl. unfold run. cbn [while_true]. unfold main_body.
    rewrite Hl. reflexivity. }
  split.
  { intros input.
    destruct (run_terminates load Hcons (S (List.length input)) (mkProcess input []))
      as (p & e & H); [simpl; lia|].
    destruct (Hend _ _ _ _ H) as [x ->]. eauto. }
  intros fuel. split.
  - unfold main, run. cbn [while_true]. unfold main_body. cbn [bstdin].
    rewrite Heof. reflexivity.
  - split; [reflexivity | simpl; discriminate].
Qed.

Lemma main_loop_exit_witness :
  (exists p x,
      main cbor_load 7 [x18; x2a; xa1; x61; x61; x01] = Some (p, Uncaught x))
  /\ main cbor_load 3 [x18; x2a; xa1; x61; x61; x01]
     = Some (mkProcess []
               [EvJson (PInt 42); EvNewline;
                EvJson (PDict [(KStr (str_lit "a"), PInt 1)]); EvNewline],
             Uncaught EOFError)
  /\ main cbor_load 1 [xff] = Some (mkProcess [xff] [], Uncaught ValueError)
  /\ main cbor_load 1 [] = Some (mkProcess [] [], Uncaught EOFError).
Proof.
  destruct (main_loop_exit cbor_load eq_refl cbor_load_consumes)
    as (_ & _ & _ & Hterm & Hempty).
  split; [exact (Hterm [x18; x2a; xa1; x61; x61; x01])|].
  split; [reflexivity|].
  split; [reflexivity|].
  exact (proj1 (Hempty 0%nat)).
Defined.



(** * Further properties of the script *)

(** ** [maybestr] by the bytes of its argument *)

(** [maybestr] decides by the bytes alone: it returns the text, one code
    point per byte, exactly when every byte lies in [0x20, 0x7F]; a byte
    outside the range gives [None] even inside a well-formed multi-byte
    UTF-8 sequence. *)
Theorem maybestr_by_bytes (b : pybytes) :
  (all_in_range b = true ->
     maybestr b = Ret (PStr (ascii_text b))
     /\ List.length (ascii_text b) = List.length b)
  /\ (all_in_range b = false -> maybestr b = Ret PNone)
  /\ (forall y, maybestr b = Ret (PStr y) ->
        all_in_range b = true /\ y = ascii_text b).
Proof.
  rewrite maybestr_bytes.
  split; [intros ->; split; [reflexivity | apply ascii_text_length]|].
  split; [intros ->; reflexivity|].
  intros y H. destruct (all_in_range b); [|discriminate].
  inversion H. split; reflexivity.
Qed.

Lemma maybestr_by_bytes_witness :
  (maybestr [x20; x7e; x7f] = Ret (PStr [0x20; 0x7E; 0x7F])
   /\ List.length (ascii_text [x20; x7e; x7f]) = 3%nat)
  /\ maybestr [x41; xc3; xa9] = Ret PNone
  /\ bytes_decode [x41; xc3; xa9] = Ret [0x41; 0xE9]
  /\ maybestr [x1f] = Ret PNone.
Proof.
  split; [apply (proj1 (maybestr_by_bytes [x20; x7e; x7f])); reflexivity|].
  split; [apply (proj1 (proj2 (maybestr_by_bytes [x41; xc3; xa9]))); reflexivity|].
  split; [reflexivity|].
  apply (proj1 (proj2 (maybestr_by_bytes [x1f]))); reflexivity.
Defined.

(** ** When [jsonable] raises *)

(** A byte-string entry can be stored: it takes the text path, or its key
    is a [str] so that [k + '_b64'] is defined. *)
Definition bytes_key_ok (k : pykey) (v : pyval) : bool :=
  match v with
  | PBytes b => text_path b || is_text_key k
  | _ => true
  end.

(** Every mapping that [jsonable] visits has storable entries only. *)
Fixpoint keys_ok (x : pyval) : bool :=
  match x with
  | PDict d =>
      forallb (fun kv => bytes_key_ok (fst kv) (snd kv) && keys_ok (snd kv)) d
  | _ => true
  end.

Lemma out_key_bytes_key_ok (k : pykey) (v : pyval) :
  out_key k v = if bytes_key_ok k v
                then out_key k v
                else Raise TypeError.
Proof.
  destruct (bytes_key_ok k v) eqn:E; [reflexivity|].
  destruct v; try discriminate. simpl in *.
  apply orb_false_iff in E. destruct E as [-> Hk].
  destruct k; try discriminate; reflexivity.
Qed.

Lemma out_key_total (k : pykey) (v : pyval) :
  bytes_key_ok k v = true -> exists q, out_key k v = Ret q.
Proof.
  destruct v; simpl; eauto.
  destruct (text_path b); simpl; eauto.
  destruct k; try discriminate; simpl; eauto.
Qed.

(** The first entry that cannot be stored decides the result of the
    loop. *)
Lemma writes_raise (d : list (pykey * pyval)) :
  Forall (fun kv => (keys_ok (snd kv) = true -> exists y, jsonable (snd kv) = Ret y)
                    /\ (keys_ok (snd kv) = false -> jsonable (snd kv) = Raise TypeError)) d ->
  forallb (fun kv => bytes_key_ok (fst kv) (snd kv) && keys_ok (snd kv)) d = false ->
  writes d = Raise TypeError.
Proof.
  induction 1 as [|[k v] d [Hok Hbad] _ IH]; simpl; [discriminate|].
  intros H. cbn [fst snd] in Hok, Hbad.
  assert ((is_bytes v = false /\ out_val v = jsonable v)
          \/ (keys_ok v = true /\ exists w, out_val v = Ret w)) as Hv.
  { destruct v; simpl; auto. right. destruct (text_path b); eauto. }
  destruct (keys_ok v) eqn:Ek.
  - assert (exists w, out_val v = Ret w) as [w Hw].
    { destruct Hv as [[_ Hv] | [_ Hv]]; [|exact Hv]. rewrite Hv. auto. }
    rewrite Hw. cbn [bind].
    rewrite out_key_bytes_key_ok.
    destruct (bytes_key_ok k v) eqn:Eb; [|reflexivity].
    destruct (out_key_total _ _ Eb) as [q Hq]. rewrite Hq. cbn [bind].
    simpl in H. rewrite (IH H). reflexivity.
  - destruct Hv as [[_ Hv] | [Hv _]]; [|discriminate].
    rewrite Hv, (Hbad eq_refl). reflexivity.
Qed.

(** [jsonable] raises exactly when some mapping it visits holds, under a
    key that is not a [str], a byte string on the base64 path; the
    exception is then [TypeError].  Keys of any other type pass. *)
Theorem jsonable_raises_exactly (x : pyval) :
  (keys_ok x = true -> exists y, jsonable x = Ret y)
  /\ (keys_ok x = false -> jsonable x = Raise TypeError).
Proof.
  induction x as [| | | | | | l _ | d IH] using pyval_nested_ind;
    try (split; [intros _; eexists; reflexivity | discriminate]).
  rewrite jsonable_dict. split.
  - intros Hk. cbn [keys_ok] in Hk. rewrite forallb_forall in Hk.
    destruct (writes_total d) as [ws Hws]; [|rewrite Hws; simpl; eauto].
    rewrite Forall_forall in IH |- *. intros [k v] Hin. cbn [fst snd].
    specialize (Hk _ Hin). cbn [fst snd] in Hk.
    apply andb_true_iff in Hk. destruct Hk as [Hb Hv].
    destruct (out_key_total _ _ Hb) as [q Hq]. exists q.
    assert (exists w, out_val v = Ret w) as [w Hw]; [|eauto].
    destruct (is_bytes v) eqn:Eb.
    + destruct v; try discriminate. simpl. destruct (text_path b); eauto.
    + destruct (proj1 (IH _ Hin) Hv) as [y Hy]. cbn [snd] in Hy.
      exists y. destruct v; try discriminate; exact Hy.
  - intros Hk. cbn [keys_ok] in Hk.
    rewrite (writes_raise d IH Hk). reflexivity.
Qed.

Lemma jsonable_raises_exactly_witness :
  (exists y, jsonable (PDict [(KInt 7, PBytes [x41]);
                              (KNone, PDict [(KBool true, PInt 1)]);
                              (KStr (str_lit "b"), PBytes [xff])]) = Ret y)
  /\ jsonable (PDict [(KStr (str_lit "m"), PDict [(KInt 7, PBytes [xff])])])
     = Raise TypeError
  /\ jsonable (PDict [(KInt 7, PBytes [])]) = Raise TypeError.
Proof.
  split; [apply (proj1 (jsonable_raises_exactly _)); reflexivity|].
  split; apply (proj2 (jsonable_raises_exactly _)); reflexivity.
Defined.

(** ** Mappings that [jsonable] leaves alone, and its results *)

Definition has_key (d : pydict) (k : pykey) : bool :=
  existsb (fun kv => key_eqb (fst kv) k) d.

(** No two entries have equal keys, as in every [dict]. *)
Fixpoint keys_distinct (d : pydict) : bool :=
  match d with
  | [] => true
  | (k, _) :: d' => negb (has_key d' k) && keys_distinct d'
  end.

(** No mapping that [jsonable] visits holds a byte string as a value. *)
Fixpoint settled (x : pyval) : bool :=
  match x with
  | PDict d =>
      keys_distinct d
      && forallb (fun kv => negb (is_bytes (snd kv)) && settled (snd kv)) d
  | _ => true
  end.

Lemma has_key_dict_get (d : pydict) (k : pykey) :
  has_key d k = match dict_get d k with Some _ => true | None => false end.
Proof.
  induction d as [|[k' v'] d IH]; simpl; [reflexivity|].
  destruct (key_eqb k' k); simpl; [reflexivity | exact IH].
Qed.

Lemma has_key_dict_set (d : pydict) (k q : pykey) (v : pyval) :
  has_key (dict_set d k v) q = key_eqb k q || has_key d q.
Proof.
  rewrite !has_key_dict_get, dict_get_set.
  destruct (key_eqb k q); reflexivity.
Qed.

Lemma has_key_app (a b : pydict) (k : pykey) :
  has_key (a ++ b) k = has_key a k || has_key b k.
Proof. unfold has_key. apply existsb_app. Qed.

Lemma dict_set_fresh (d : pydict) (k : pykey) (v : pyval) :
  has_key d k = false -> dict_set d k v = d ++ [(k, v)].
Proof.
  induction d as [|[k' v'] d IH]; simpl; [reflexivity|].
  intros H. apply orb_false_iff in H. destruct H as [-> H].
  rewrite (IH H). reflexivity.
Qed.

Lemma keys_distinct_app_cons (acc d : pydict) (k : pykey) (v : pyval) :
  keys_distinct (acc ++ (k, v) :: d) = true -> has_key acc k = false.
Proof.
  induction acc as [|[a w] acc IH]; simpl; [reflexivity|].
  intros H. apply andb_true_iff in H. destruct H as [Ha H].
  rewrite (IH H), orb_false_r.
  apply negb_true_iff in Ha. rewrite has_key_app in Ha.
  apply orb_false_iff in Ha. destruct Ha as [_ Ha]. simpl in Ha.
  apply orb_false_iff in Ha. destruct Ha as [Ha _].
  rewrite key_eqb_sym. exact Ha.
Qed.

(** Stores under pairwise different keys append, in order. *)
Lemma apply_writes_distinct (d : pydict) :
  forall acc, keys_distinct (acc ++ d) = true -> apply_writes d acc = acc ++ d.
Proof.
  induction d as [|[k v] d IH]; intros acc H.
  - simpl. rewrite app_nil_r. reflexivity.
  - unfold apply_writes in *. cbn [fold_left fst snd].
    rewrite (dict_set_fresh _ _ _ (keys_distinct_app_cons _ _ _ _ H)).
    rewrite IH; rewrite <- app_assoc; [reflexivity | exact H].
Qed.

Lemma dict_set_keys_distinct (d : pydict) (k : pykey) (v : pyval) :
  keys_distinct d = true -> keys_distinct (dict_set d k v) = true.
Proof.
  induction d as [|[k' v'] d IH]; simpl; [reflexivity|].
  intros H. apply andb_true_iff in H. destruct H as [Hk Hd].
  destruct (key_eqb k' k) eqn:E; simpl.
  - rewrite Hk, Hd. reflexivity.
  - rewrite has_key_dict_set, (IH Hd), key_eqb_sym, E.
    apply negb_true_iff in Hk. rewrite Hk. reflexivity.
Qed.

Lemma dict_set_values (P : pyval -> Prop) (d : pydict) (k : pykey) (v : pyval) :
  Forall (fun kv => P (snd kv)) d -> P v ->
  Forall (fun kv => P (snd kv)) (dict_set d k v).
Proof.
  intros Hd Hv. induction Hd as [|[k' v'] d Hx Hd IH]; simpl.
  - constructor; [exact Hv | constructor].
  - destruct (key_eqb k' k); constructor; auto.
Qed.

Lemma apply_writes_keys_distinct (ws : list (pykey * pyval)) :
  forall d, keys_distinct d = true -> keys_distinct (apply_writes ws d) = true.
Proof.
  induction ws as [|[k v] ws IH]; intros d H; [exact H|].
  unfold apply_writes in *. simpl. apply IH. apply dict_set_keys_distinct, H.
Qed.

Lemma apply_writes_values (P : pyval -> Prop) (ws : list (pykey * pyval)) :
  Forall (fun kv => P (snd kv)) ws ->
  forall d, Forall (fun kv => P (snd kv)) d ->
  Forall (fun kv => P (snd kv)) (apply_writes ws d).
Proof.
  induction 1 as [|[k v] ws Hv _ IH]; intros d Hd; [exact Hd|].
  unfold apply_writes in *. simpl. apply IH. apply dict_set_values; assumption.
Qed.

(** Each stored pair comes from an entry of the mapping. *)
Lemma writes_in (d : list (pykey * pyval)) :
  forall ws, writes d = Ret ws ->
  forall q w, In (q, w) ws ->
  exists k v, In (k, v) d /\ out_key k v = Ret q /\ out_val v = Ret w.
Proof.
  induction d as [|[k v] d IH]; intros ws H q w Hin.
  - simpl in H. inversion H; subst. destruct Hin.
  - apply writes_cons_inv in H. destruct H as (q' & w' & ws' & Hq & Hw & Hr & ->).
    destruct Hin as [Heq | Hin].
    + inversion Heq; subst. exists k, v. split; [left; reflexivity | auto].
    + destruct (IH _ Hr _ _ Hin) as (k0 & v0 & Hin0 & H0).
      exists k0, v0. split; [right; exact Hin0 | exact H0].
Qed.

Lemma writes_length (d : list (pykey * pyval)) :
  forall ws, writes d = Ret ws -> List.length ws = List.length d.
Proof.
  induction d as [|[k v] d IH]; intros ws H.
  - simpl in H. inversion H. reflexivity.
  - apply writes_cons_inv in H. destruct H as (q' & w' & ws' & _ & _ & Hr & ->).
    simpl. rewrite (IH _ Hr). reflexivity.
Qed.

Lemma writes_settled (d : list (pykey * pyval)) :
  Forall (fun kv => settled (snd kv) = true -> jsonable (snd kv) = Ret (snd kv)) d ->
  forallb (fun kv => negb (is_bytes (snd kv)) && settled (snd kv)) d = true ->
  writes d = Ret d.
Proof.
  induction 1 as [|[k v] d Hv _ IH]; simpl; intros H; [reflexivity|].
  apply andb_true_iff in H. destruct H as [H Hd].
  apply andb_true_iff in H. destruct H as [Hb Hs].
  apply negb_true_iff in Hb.
  assert (out_val v = Ret v) as ->
    by (destruct v; try discriminate; apply (Hv Hs)).
  assert (out_key k v = Ret k) as ->
    by (destruct v; try discriminate; reflexivity).
  simpl. rewrite (IH Hd). reflexivity.
Qed.

(** [jsonable] is the identity on every value in which no visited mapping
    holds a byte string as a value: mappings are rebuilt entry for entry, in
    the same order. *)
Theorem jsonable_identity_without_bytes (x : pyval) :
  settled x = true -> jsonable x = Ret x.
Proof.
  induction x as [| | | | | | l _ | d IH] using pyval_nested_ind;
    intros Hs; try reflexivity.
  cbn [settled] in Hs. apply andb_true_iff in Hs. destruct Hs as [Hk Hv].
  rewrite jsonable_dict, (writes_settled d IH Hv). cbn [bind].
  rewrite (apply_writes_distinct d []); [reflexivity | exact Hk].
Qed.

Lemma jsonable_identity_without_bytes_witness :
  jsonable (PDict [(KStr (str_lit "a"), PInt 1);
                   (KInt 2, PList [PBytes [xff]]);
                   (KStr (str_lit "m"), PDict [(KNone, PStr (str_lit "t"))])])
  = Ret (PDict [(KStr (str_lit "a"), PInt 1);
                (KInt 2, PList [PBytes [xff]]);
                (KStr (str_lit "m"), PDict [(KNone, PStr (str_lit "t"))])]).
Proof.
  apply jsonable_identity_without_bytes. reflexivity.
Defined.

Lemma jsonable_result_settled (x : pyval) :
  forall y, jsonable x = Ret y -> settled y = true.
Proof.
  induction x as [| | | | | | l _ | d IH] using pyval_nested_ind;
    intros y H; try (inversion H; subst; reflexivity).
  apply jsonable_dict_inv in H. destruct H as (ws & Hw & ->).
  cbn [settled]. rewrite (apply_writes_keys_distinct ws [] eq_refl). cbn [andb].
  apply forallb_forall.
  apply Forall_forall.
  apply (apply_writes_values
           (fun w => negb (is_bytes w) && settled w = true) ws); [|constructor].
  apply Forall_forall. intros [q w] Hin. cbn [snd].
  destruct (writes_in _ _ Hw _ _ Hin) as (k & v & Hkv & _ & Hv).
  rewrite (out_val_not_bytes _ _ Hv). cbn [negb andb].
  destruct (is_bytes v) eqn:Eb.
  - destruct v; try discriminate. simpl in Hv.
    destruct (text_path b); inversion Hv; reflexivity.
  - rewrite Forall_forall in IH. apply (IH _ Hkv).
    cbn [snd]. destruct v; try discriminate; exact Hv.
Qed.

(** [jsonable] is idempotent: a value it returns holds no byte string as a
    mapping value any more and its mappings have pairwise different keys, so
    a second application returns it unchanged. *)
Theorem jsonable_idempotent (x y : pyval) :
  jsonable x = Ret y ->
  jsonable y = Ret y /\ settled y = true.
Proof.
  intros H. pose proof (jsonable_result_settled x y H) as Hs.
  split; [|exact Hs].
  revert Hs. clear H x.
  induction y as [| | | | | | l _ | d IH] using pyval_nested_ind;
    intros Hs; try reflexivity.
  cbn [settled] in Hs. apply andb_true_iff in Hs. destruct Hs as [Hk Hv].
  rewrite jsonable_dict, (writes_settled d IH Hv). cbn [bind].
  rewrite (apply_writes_distinct d []); [reflexivity | exact Hk].
Qed.

Lemma jsonable_idempotent_witness :
  jsonable (PDict [(KStr (str_lit "x_b64"), PStr (str_lit "/w=="))])
  = Ret (PDict [(KStr (str_lit "x_b64"), PStr (str_lit "/w=="))])
  /\ settled (PDict [(KStr (str_lit "x_b64"), PStr (str_lit "/w=="))]) = true.
Proof.
  apply (jsonable_idempotent
           (PDict [(KStr (str_lit "x_b64"), PBytes [x41]);
                   (KStr (str_lit "x"), PBytes [xff])])).
  reflexivity.
Defined.

(** ** The entries of the result *)

(** The entry [(k, v)] is stored as [(q, w)]. *)
Definition stored_as (kv qw : pykey * pyval) : Prop :=
  out_key (fst kv) (snd kv) = Ret (fst qw) /\ out_val (snd kv) = Ret (snd qw).

Lemma writes_forall2 (d out : list (pykey * pyval)) :
  Forall2 stored_as d out -> writes d = Ret out.
Proof.
  induction 1 as [|[k v] [q w] d out [Hq Hw] _ IH]; [reflexivity|].
  cbn [fst snd] in Hq, Hw. cbn [writes].
  rewrite Hw, Hq, IH. reflexivity.
Qed.

Lemma dict_set_length (d : pydict) (k : pykey) (v : pyval) :
  (List.length (dict_set d k v) <= S (List.length d))%nat.
Proof.
  induction d as [|[k' v'] d IH]; simpl; [lia|].
  destruct (key_eqb k' k); simpl; lia.
Qed.

Lemma apply_writes_length (ws : list (pykey * pyval)) :
  forall d, (List.length (apply_writes ws d) <= List.length d + List.length ws)%nat.
Proof.
  induction ws as [|[k v] ws IH]; intros d; [simpl; lia|].
  unfold apply_writes in *. cbn [fold_left fst snd List.length].
  specialize (IH (dict_set d k v)). pose proof (dict_set_length d k v). lia.
Qed.

(** When the entries of a mapping are stored under pairwise different
    keys, the result lists what they are stored as, one entry per entry and
    in the iteration order of the input; in every case the result has no
    more entries than the input. *)
Theorem jsonable_keeps_order (d out : list (pykey * pyval)) :
  (Forall2 stored_as d out -> keys_distinct out = true ->
     jsonable (PDict d) = Ret (PDict out))
  /\ (jsonable (PDict d) = Ret (PDict out) ->
        (List.length out <= List.length d)%nat).
Proof.
  split.
  - intros Hs Hk. rewrite jsonable_dict, (writes_forall2 _ _ Hs). cbn [bind].
    rewrite (apply_writes_distinct out []); [reflexivity | exact Hk].
  - intros H. apply jsonable_dict_inv in H. destruct H as (ws & Hw & Hout).
    inversion Hout; subst out.
    pose proof (apply_writes_length ws []) as Hl.
    rewrite (writes_length _ _ Hw) in Hl. simpl in Hl. exact Hl.
Qed.

Lemma jsonable_keeps_order_witness :
  jsonable (PDict [(KStr (str_lit "z"), PBytes [xff]);
                   (KStr (str_lit "a"), PBytes [x41]);
                   (KInt 5, PNone)])
  = Ret (PDict [(KStr (str_lit "z_b64"), PStr (str_lit "/w=="));
                (KStr (str_lit "a"), PStr (str_lit "A"));
                (KInt 5, PNone)])
  /\ (List.length [(KStr (str_lit "x_b64"), PInt 1)]
      <= List.length [(KStr (str_lit "x"), PBytes [xff]);
                      (KStr (str_lit "x_b64"), PInt 1)])%nat.
Proof.
  split.
  - apply (proj1 (jsonable_keeps_order _ _)); [|reflexivity].
    repeat constructor.
  - apply (proj2 (jsonable_keeps_order _ _)). reflexivity.
Defined.

(** Where the pairs of a mapping built by stores come from: the key of an
    entry is the key of some store, its value the value of a store under an
    equal key. *)
Lemma apply_writes_origin (ws : list (pykey * pyval)) :
  forall d q w, In (q, w) (apply_writes ws d) ->
  ((exists w0, In (q, w0) d) \/ (exists w0, In (q, w0) ws))
  /\ (In (q, w) d
      \/ exists q', In (q', w) ws /\ key_eqb q' q = true).
Proof.
  assert (forall d k v q w, In (q, w) (dict_set d k v) ->
            In (q, w) d
            \/ (w = v /\ (q = k \/ ((exists w0, In (q, w0) d) /\ key_eqb k q = true))))
    as Hset.
  { induction d as [|[k' v'] d IHd]; intros k v q w Hin; simpl in Hin.
    - destruct Hin as [Heq | []]. inversion Heq; subst. right. auto.
    - destruct (key_eqb k' k) eqn:E.
      + destruct Hin as [Heq | Hin].
        * inversion Heq; subst. right. split; [reflexivity|]. right.
          split; [exists v'; left; reflexivity|].
          rewrite key_eqb_sym. exact E.
        * left. right. exact Hin.
      + destruct Hin as [Heq | Hin].
        * inversion Heq; subst. left. left. reflexivity.
        * destruct (IHd _ _ _ _ Hin) as [H | (-> & [-> | [[w0 H0] Hk]])].
          -- left. right. exact H.
          -- right. auto.
          -- right. split; [reflexivity|]. right.
             split; [exists w0; right; exact H0 | exact Hk]. }
  induction ws as [|[k v] ws IH]; intros d q w Hin.
  - simpl in Hin. split; [left; eauto | left; exact Hin].
  - unfold apply_writes in *. cbn [fold_left fst snd] in Hin.
    destruct (IH _ _ _ Hin) as [Hkey Hval]. split.
    + destruct Hkey as [[w0 H0] | [w0 H0]].
      * destruct (Hset _ _ _ _ _ H0) as [H | (_ & [-> | [[w1 H1] _]])].
        -- left. eauto.
        -- right. exists v. left. reflexivity.
        -- left. eauto.
      * right. exists w0. right. exact H0.
    + destruct Hval as [H0 | (q' & H0 & Hq)].
      * destruct (Hset _ _ _ _ _ H0) as [H | (-> & [-> | [_ Hk]])].
        -- left. exact H.
        -- right. exists k. split; [left; reflexivity | apply key_eqb_refl].
        -- right. exists k. split; [left; reflexivity | exact Hk].
      * right. exists q'. split; [right; exact H0 | exact Hq].
Qed.

(** [jsonable] invents no entry: every key of the result is the key some
    entry of the input is stored under (the entry's own key, or that key
    with [_b64] appended), and its value is what an entry stored under an
    equal key contributes. *)
Theorem jsonable_entries_from_input
        (d : list (pykey * pyval)) (out : pydict) (q : pykey) (w : pyval) :
  jsonable (PDict d) = Ret (PDict out) ->
  In (q, w) out ->
  (exists k v, In (k, v) d /\ out_key k v = Ret q
               /\ (q = k \/ exists s, k = KStr s /\ q = KStr (s ++ str_lit "_b64")))
  /\ (exists k v q', In (k, v) d /\ out_key k v = Ret q'
                     /\ key_eqb q' q = true /\ out_val v = Ret w).
Proof.
  intros H Hin.
  apply jsonable_dict_inv in H. destruct H as (ws & Hw & Hout).
  inversion Hout; subst out.
  destruct (apply_writes_origin _ _ _ _ Hin) as [Hkey Hval]. split.
  - destruct Hkey as [[w0 []] | [w0 H0]].
    destruct (writes_in _ _ Hw _ _ H0) as (k & v & Hkv & Hq & _).
    exists k, v. split; [exact Hkv|]. split; [exact Hq|].
    destruct v; simpl in Hq; try (inversion Hq; auto; fail).
    destruct (text_path b); [inversion Hq; auto|].
    destruct k; try discriminate. inversion Hq. right. eauto.
  - destruct Hval as [[] | (q' & H0 & Hq)].
    destruct (writes_in _ _ Hw _ _ H0) as (k & v & Hkv & Hk & Hv).
    exists k, v, q'. auto.
Qed.

Lemma jsonable_entries_from_input_witness :
  (exists k v,
      In (k, v) [(KStr (str_lit "x_b64"), PInt 1); (KStr (str_lit "x"), PBytes [xff])]
      /\ out_key k v = Ret (KStr (str_lit "x_b64"))
      /\ (KStr (str_lit "x_b64") = k
          \/ exists s, k = KStr s /\ KStr (str_lit "x_b64") = KStr (s ++ str_lit "_b64")))
  /\ (exists k v q',
         In (k, v) [(KStr (str_lit "x_b64"), PInt 1); (KStr (str_lit "x"), PBytes [xff])]
         /\ out_key k v = Ret q'
         /\ key_eqb q' (KStr (str_lit "x_b64")) = true
         /\ out_val v = Ret (PStr (str_lit "/w=="))).
Proof.
  apply (jsonable_entries_from_input
           [(KStr (str_lit "x_b64"), PInt 1); (KStr (str_lit "x"), PBytes [xff])]
           [(KStr (str_lit "x_b64"), PStr (str_lit "/w=="))]).
  - reflexivity.
  - left. reflexivity.
Defined.

(** ** What the loop prints *)

(** Every byte string of the value is a direct value of a mapping that
    [jsonable] visits, and no key is a byte string: nothing is left that
    [json.dump] refuses once the mapping values are converted. *)
Fixpoint dumps_after (x : pyval) : bool :=
  match x with
  | PDict d =>
      forallb (fun kv => key_json_ok (fst kv)
                         && (is_bytes (snd kv) || dumps_after (snd kv))) d
  | PBytes _ => false
  | PList l => forallb json_ok l
  | _ => true
  end.

(** One printed line. *)
Definition line_of (j : pyval) : list event := [EvJson j; EvNewline].

(** The output of the rest of a run, after the output [pre]. *)
Definition after_output (pre : list event) (r : process * ending)
  : process * ending :=
  (mkProcess (bstdin (fst r)) (pre ++ stdout (fst r)), snd r).

Lemma dict_set_json_ok (d : pydict) (k : pykey) (v : pyval) :
  json_ok (PDict d) = true -> key_json_ok k = true -> json_ok v = true ->
  json_ok (PDict (dict_set d k v)) = true.
Proof.
  cbn [json_ok]. intros Hd Hk Hv.
  induction d as [|[k' v'] d IH]; simpl.
  - rewrite Hk, Hv. reflexivity.
  - simpl in Hd. apply andb_true_iff in Hd. destruct Hd as [Hx Hd].
    apply andb_true_iff in Hx. destruct Hx as [Hk' Hv'].
    destruct (key_eqb k' k); simpl.
    + rewrite Hk', Hv, Hd. reflexivity.
    + rewrite Hk', Hv', (IH Hd). reflexivity.
Qed.

Lemma apply_writes_json_ok (ws : list (pykey * pyval)) :
  Forall (fun qw => key_json_ok (fst qw) = true /\ json_ok (snd qw) = true) ws ->
  forall d, json_ok (PDict d) = true -> json_ok (PDict (apply_writes ws d)) = true.
Proof.
  induction 1 as [|[q w] ws [Hq Hw] _ IH]; intros d Hd; [exact Hd|].
  unfold apply_writes in *. cbn [fold_left fst snd] in *.
  apply IH. apply dict_set_json_ok; assumption.
Qed.

Lemma jsonable_json_ok (x : pyval) :
  forall y, jsonable x = Ret y -> dumps_after x = true -> json_ok y = true.
Proof.
  induction x as [| | | | | | l _ | d IH] using pyval_nested_ind;
    intros y H Hd; try (inversion H; subst; exact Hd).
  apply jsonable_dict_inv in H. destruct H as (ws & Hw & ->).
  apply apply_writes_json_ok; [|reflexivity].
  apply Forall_forall. intros [q w] Hin. cbn [fst snd].
  destruct (writes_in _ _ Hw _ _ Hin) as (k & v & Hkv & Hq & Hv).
  cbn [dumps_after] in Hd. rewrite forallb_forall in Hd.
  specialize (Hd _ Hkv). cbn [fst snd] in Hd.
  apply andb_true_iff in Hd. destruct Hd as [Hk Hb].
  rewrite Forall_forall in IH. specialize (IH _ Hkv). cbn [snd] in IH.
  destruct (is_bytes v) eqn:Eb.
  - destruct v; try discriminate. simpl in Hq, Hv.
    destruct (text_path b); inversion Hv; subst.
    + inversion Hq; subst. auto.
    + destruct k; try discriminate. inversion Hq. auto.
  - simpl in Hb. split.
    + destruct v; try discriminate; inversion Hq; subst; exact Hk.
    + apply IH; [|exact Hb]. destruct v; try discriminate; exact Hv.
Qed.

(** An item whose byte strings all sit directly in mappings that [jsonable]
    visits, with no byte-string key, is made serializable by [jsonable]:
    the loop prints it as one complete line and goes on with the rest of the
    input. *)
Theorem item_prints_one_line (ob j : pyval) :
  jsonable ob = Ret j ->
  dumps_after ob = true ->
  json_ok j = true
  /\ forall (load : decoder) fuel p rest,
       load (bstdin p) = Ret (ob, rest) ->
       run load (S fuel) p
       = run load fuel (mkProcess rest (stdout p ++ line_of j)).
Proof.
  intros Hj Hd.
  pose proof (jsonable_json_ok ob j Hj Hd) as Hok.
  split; [exact Hok|].
  intros load fuel p rest Hl. apply (run_line load fuel p ob j rest Hl Hj Hok).
Qed.

Lemma item_prints_one_line_witness :
  json_ok (PDict [(KStr (str_lit "blob_b64"), PStr (str_lit "//4A"));
                  (KStr (str_lit "m"), PDict [(KInt 1, PStr (str_lit "A"))])]) = true
  /\ forall (load : decoder) fuel p rest,
       load (bstdin p)
       = Ret (PDict [(KStr (str_lit "blob"), PBytes [xff; xfe; x00]);
                     (KStr (str_lit "m"), PDict [(KInt 1, PBytes [x41])])], rest) ->
       run load (S fuel) p
       = run load fuel
           (mkProcess rest
              (stdout p
               ++ line_of (PDict [(KStr (str_lit "blob_b64"), PStr (str_lit "//4A"));
                                  (KStr (str_lit "m"),
                                   PDict [(KInt 1, PStr (str_lit "A"))])]))).
Proof.
  apply (item_prints_one_line
           (PDict [(KStr (str_lit "blob"), PBytes [xff; xfe; x00]);
                   (KStr (str_lit "m"), PDict [(KInt 1, PBytes [x41])])])).
  - reflexivity.
  - reflexivity.
Defined.

(** An item that cannot be printed ends the process.  When [jsonable]
    raises, the exception ends it with nothing more written.  When the
    result still holds a byte string, [json.dump] raises [TypeError] and no
    line is completed; this is what happens to a bare byte string and to a
    sequence holding one, which [jsonable] returns as they are. *)
Theorem unprintable_item_ends_process
        (load : decoder) (fuel : nat) (p : process) (ob : pyval) (rest : list byte) :
  load (bstdin p) = Ret (ob, rest) ->
  (forall e, jsonable ob = Raise e ->
     run load (S fuel) p = Some (mkProcess rest (stdout p), Uncaught e))
  /\ (forall j, jsonable ob = Ret j -> json_ok j = false ->
        run load (S fuel) p
        = Some (mkProcess rest (stdout p ++ [EvJsonPartial j]), Uncaught TypeError))
  /\ (is_dict ob = false -> json_ok ob = false ->
        run load (S fuel) p
        = Some (mkProcess rest (stdout p ++ [EvJsonPartial ob]), Uncaught TypeError)
        /\ lines (stdout p ++ [EvJsonPartial ob]) = lines (stdout p)).
Proof.
  intros Hl.
  assert (forall j, jsonable ob = Ret j -> json_ok j = false ->
            run load (S fuel) p
            = Some (mkProcess rest (stdout p ++ [EvJsonPartial j]), Uncaught TypeError))
    as Hbad.
  { intros j Hj Hok. unfold run. cbn [while_true]. unfold main_body.
    rewrite Hl, Hj, Hok. reflexivity. }
  split.
  { intros e He. unfold run. cbn [while_true]. unfold main_body.
    rewrite Hl, He. reflexivity. }
  split; [exact Hbad|].
  intros Hd Hok. split.
  - apply Hbad; [|exact Hok]. destruct ob; try reflexivity. discriminate Hd.
  - unfold lines. rewrite filter_app, length_app. simpl. lia.
Qed.

Lemma unprintable_item_ends_process_witness :
  run cbor_load 1 (mkProcess [x41; xff] [])
  = Some (mkProcess [] [EvJsonPartial (PBytes [xff])], Uncaught TypeError)
  /\ run cbor_load 1 (mkProcess [x81; x41; xff] [])
     = Some (mkProcess [] [EvJsonPartial (PList [PBytes [xff]])], Uncaught TypeError)
  /\ run cbor_load 1 (mkProcess [xa1; x01; x41; xff] [])
     = Some (mkProcess [] [], Uncaught TypeError).
Proof.
  split.
  { apply (proj1 (proj2 (proj2
      (unprintable_item_ends_process cbor_load 0 (mkProcess [x41; xff] [])
         (PBytes [xff]) [] eq_refl)) eq_refl eq_refl)). }
  split.
  { apply (proj1 (proj2 (proj2
      (unprintable_item_ends_process cbor_load 0 (mkProcess [x81; x41; xff] [])
         (PList [PBytes [xff]]) [] eq_refl)) eq_refl eq_refl)). }
  apply (proj1
    (unprintable_item_ends_process cbor_load 0 (mkProcess [xa1; x01; x41; xff] [])
       (PDict [(KInt 1, PBytes [xff])]) [] eq_refl) TypeError eq_refl).
Defined.

(** Output already written does not influence the rest of a run. *)
Lemma run_after_output (load : decoder) (pre : list event) (fuel : nat) :
  forall s out,
  run load fuel (mkProcess s (pre ++ out))
  = option_map (after_output pre) (run load fuel (mkProcess s out)).
Proof.
  induction fuel as [|n IH]; intros s out; [reflexivity|].
  unfold run in *. cbn [while_true]. unfold main_body. cbn [bstdin stdout].
  destruct (load s) as [[ob rest]|e]; [|reflexivity].
  destruct (jsonable ob) as [j|e]; [|reflexivity].
  destruct (json_ok j).
  - rewrite <- app_assoc. apply IH.
  - cbn [option_map]. unfold after_output. cbn [fst snd bstdin stdout].
    rewrite app_assoc. reflexivity.
Qed.

(** The passes of the loop share no state but the input: the run on a
    stream whose first item prints a line is that line followed by the run
    on the rest of the stream, with the same ending. *)
Theorem main_first_item_then_rest
        (load : decoder) (fuel : nat) (input rest : list byte) (ob j : pyval) :
  load input = Ret (ob, rest) ->
  jsonable ob = Ret j ->
  json_ok j = true ->
  main load (S fuel) input
  = option_map (after_output (line_of j)) (main load fuel rest).
Proof.
  intros Hl Hj Hok. unfold main.
  rewrite (run_line load fuel (mkProcess input []) ob j rest Hl Hj Hok).
  cbn [stdout app].
  rewrite <- (run_after_output load (line_of j) fuel rest []).
  unfold line_of. reflexivity.
Qed.

Lemma main_first_item_then_rest_witness :
  main cbor_load 3 [x18; x2a; xa1; x61; x61; x01]
  = option_map (after_output (line_of (PInt 42)))
      (main cbor_load 2 [xa1; x61; x61; x01]).
Proof.
  apply (main_first_item_then_rest cbor_load 2 _ _ (PInt 42) (PInt 42));
    reflexivity.
Defined.

Lemma lines_flat_map (js : list pyval) (tail : list event) :
  lines (flat_map line_of js ++ tail) = (List.length js + lines tail)%nat.
Proof.
  induction js as [|j js IH]; [reflexivity|].
  unfold lines in *. simpl. rewrite IH. reflexivity.
Qed.

Lemma run_output_shape (load : decoder) (fuel : nat) :
  forall s js p e,
  Forall (fun j => json_ok j = true) js ->
  run load fuel (mkProcess s (flat_map line_of js)) = Some (p, e) ->
  exists js' tail,
    stdout p = flat_map line_of js' ++ tail
    /\ Forall (fun j => json_ok j = true) js'
    /\ (tail = []
        \/ exists j, tail = [EvJsonPartial j] /\ json_ok j = false
                     /\ e = Uncaught TypeError).
Proof.
  induction fuel as [|n IH]; intros s js p e Hjs H; [discriminate|].
  unfold run in *. cbn [while_true] in H. unfold main_body in H.
  cbn [bstdin stdout] in H.
  destruct (load s) as [[ob rest]|x].
  - destruct (jsonable ob) as [j|x].
    + destruct (json_ok j) eqn:Hok.
      * apply (IH rest (js ++ [j]) p e).
        -- apply Forall_app. split; [exact Hjs | repeat constructor; exact Hok].
        -- rewrite flat_map_app. exact H.
      * inversion H; subst. exists js, [EvJsonPartial j]. cbn [stdout].
        split; [reflexivity|]. split; [exact Hjs|]. right. eauto.
    + inversion H; subst. exists js, []. cbn [stdout].
      rewrite app_nil_r. auto.
  - inversion H; subst. exists js, []. cbn [stdout]. rewrite app_nil_r. auto.
Qed.

(** Whatever the input, when the process ends its output is a sequence of
    complete lines, each the JSON text of a serializable value, followed by
    at most one partial write; a partial write is the last thing written,
    it is of a value [json.dump] refuses, and the process then ends with
    [TypeError]. *)
Theorem main_output_shape
        (load : decoder) (fuel : nat) (input : list byte) (p : process) (e : ending) :
  main load fuel input = Some (p, e) ->
  exists js tail,
    stdout p = flat_map line_of js ++ tail
    /\ Forall (fun j => json_ok j = true) js
    /\ lines (stdout p) = List.length js
    /\ (tail = []
        \/ exists j, tail = [EvJsonPartial j] /\ json_ok j = false
                     /\ e = Uncaught TypeError).
Proof.
  intros H.
  destruct (run_output_shape load fuel input [] p e (Forall_nil _) H)
    as (js & tail & Hout & Hjs & Htail).
  exists js, tail. split; [exact Hout|]. split; [exact Hjs|].
  split; [|exact Htail].
  rewrite Hout, lines_flat_map.
  destruct Htail as [-> | (j & -> & _)]; unfold lines; simpl; lia.
Qed.

Lemma main_output_shape_witness :
  exists js tail,
    stdout (mkProcess [] [EvJson (PInt 42); EvNewline;
                          EvJsonPartial (PList [PBytes [xff]])])
    = flat_map line_of js ++ tail
    /\ Forall (fun j => json_ok j = true) js
    /\ lines (stdout (mkProcess [] [EvJson (PInt 42); EvNewline;
                                    EvJsonPartial (PList [PBytes [xff]])]))
       = List.length js
    /\ (tail = []
        \/ exists j, tail = [EvJsonPartial j] /\ json_ok j = false
                     /\ Uncaught TypeError = Uncaught TypeError).
Proof.
  apply (main_output_shape cbor_load 2 [x18; x2a; x81; x41; xff]).
  reflexivity.
Defined.
